(** * Excalibur: animation clock, graphics groups and off-screen culling

    A shallow embedding of

    - [src/engine/Drawing/Animation.ts]      ([AnimationImpl]),
    - [src/engine/Graphics/GraphicsGroup.ts] ([GraphicsGroup]),
    - the [OffscreenCullingModule] pipeline module,

    followed by the properties of these classes that the specification
    states.

    Conventions of the embedding.

    - Frame indices are JavaScript numbers.  The operations the code applies
      to them ([+], [%], [<], [>=], array indexing) are modelled on the
      integers extended with [NaN], which is what [%] produces for a zero
      divisor.  Negative zero is identified with zero: the two are
      indistinguishable by every operation used here.
    - Times (milliseconds), pixel sizes and drawing coordinates are integers
      ([Z]); [Date.now()] is an integer and the arithmetic used on them
      ([+], [>=]) is exact on integers of that size.
    - Vectors, rotations and the geometry of the culling module are
      rationals ([Q]).
    - Methods that only touch the instance are functions on the instance
      record.  [draw] and [play] also talk to the canvas, the engine and the
      promise machinery; they run in a small state-and-exception monad over
      a [World].
    - An animation is constructed with positional arguments and [skip] is
      given an integer count; the sprite effects, which no property below
      depends on, are left out. *)

From Stdlib Require Import ZArith QArith Lia Lqa String.
From stdpp Require Import base option list.

Local Open Scope Z_scope.

(** ** JavaScript numbers used as frame indices *)

Module JS.

Inductive number : Type :=
| Int (z : Z)
| NaN.

#[global] Instance number_eq_dec : EqDecision number.
Proof. solve_decision. Defined.

(** [a + k] *)
Definition add (a : number) (k : Z) : number :=
  match a with
  | Int z => Int (z + k)
  | NaN => NaN
  end.

(** [a % n]: the remainder takes the sign of the dividend, and is [NaN]
    when the divisor is zero. *)
Definition rem (a : number) (n : Z) : number :=
  match a with
  | Int z => if n =? 0 then NaN else Int (Z.rem z n)
  | NaN => NaN
  end.

(** [a < n] and [a >= n]: every comparison with [NaN] is false. *)
Definition lt (a : number) (n : Z) : bool :=
  match a with
  | Int z => z <? n
  | NaN => false
  end.

Definition ge (a : number) (n : Z) : bool :=
  match a with
  | Int z => n <=? z
  | NaN => false
  end.

(** [arr[i]]: [undefined] ([None]) unless [i] is an index of the array. *)
Definition index {A : Type} (arr : list A) (i : number) : option A :=
  match i with
  | Int z => if z <? 0 then None else arr !! Z.to_nat z
  | NaN => None
  end.

(** [arr.length] *)
Definition length {A : Type} (arr : list A) : Z := Z.of_nat (List.length arr).

(** The number is an integer that is a valid index of [arr]. *)
Definition valid_index {A : Type} (arr : list A) (i : number) : Prop :=
  exists z, i = Int z /\ 0 <= z < length arr.

End JS.

(** ** Collaborators of the animation *)

Record Vector : Type := mkVector { vx : Q; vy : Q }.

Definition Vector_Half : Vector := mkVector (1 # 2) (1 # 2).
Definition Vector_Zero : Vector := mkVector 0 0.
Definition Vector_One : Vector := mkVector 1 1.

(** [BoundingBox] is declared in [../Collision]; only its constructor
    without arguments is used here, which makes the empty box at the
    origin. *)
Record BoundingBox : Type :=
  mkBoundingBox { bb_left : Z; bb_top : Z; bb_right : Z; bb_bottom : Z }.

Definition new_BoundingBox : BoundingBox := mkBoundingBox 0 0 0 0.

(** [Util.clamp], declared in [../Util/Util]; [spec/MathSpec.ts] fixes its
    behaviour on the three cases below. *)
Definition clamp (val lo hi : Z) : Z := Z.min (Z.max lo val) hi.

Module Sprite.

(** The part of a [Sprite] that an animation reads or writes. *)
Record t : Type := mk {
  anchor : Vector;
  rotation : Q;
  scale : Vector;
  flipVertical : bool;
  flipHorizontal : bool;
  drawWidth : Z;
  drawHeight : Z;
  width : Z;
  height : Z;
  localBounds : BoundingBox
}.

Definition set_transform (a : Vector) (r : Q) (s : Vector) (sp : t) : t :=
  mk (mkVector (vx a) (vy a)) r s (flipVertical sp) (flipHorizontal sp)
     (drawWidth sp) (drawHeight sp) (width sp) (height sp) (localBounds sp).

Definition set_flip (fv fh : bool) (sp : t) : t :=
  mk (anchor sp) (rotation sp) (scale sp) fv fh
     (drawWidth sp) (drawHeight sp) (width sp) (height sp) (localBounds sp).

End Sprite.

(** ** [AnimationImpl] *)

Module Animation.

Record AnimationImpl : Type := mk {
  sprites : list Sprite.t;
  speed : Z;
  currentFrame : JS.number;
  _elapsedTime : Z;
  (** the [resolve] function of the future made by the last [play], named
      by the future it settles; [None] is [null] *)
  _resolveDonePlaying : option nat;
  anchor : Vector;
  offset : Vector;
  rotation : Q;
  scale : Vector;
  loop : bool;
  freezeFrame : Z;
  flipVertical : bool;
  flipHorizontal : bool;
  drawWidth : Z;
  drawHeight : Z;
  width : Z;
  height : Z
}.

Definition set_sprites (v : list Sprite.t) (a : AnimationImpl) : AnimationImpl :=
  mk v (speed a) (currentFrame a) (_elapsedTime a) (_resolveDonePlaying a)
     (anchor a) (offset a) (rotation a) (scale a) (loop a) (freezeFrame a)
     (flipVertical a) (flipHorizontal a) (drawWidth a) (drawHeight a)
     (width a) (height a).

Definition set_currentFrame (v : JS.number) (a : AnimationImpl) : AnimationImpl :=
  mk (sprites a) (speed a) v (_elapsedTime a) (_resolveDonePlaying a)
     (anchor a) (offset a) (rotation a) (scale a) (loop a) (freezeFrame a)
     (flipVertical a) (flipHorizontal a) (drawWidth a) (drawHeight a)
     (width a) (height a).

Definition set_elapsedTime (v : Z) (a : AnimationImpl) : AnimationImpl :=
  mk (sprites a) (speed a) (currentFrame a) v (_resolveDonePlaying a)
     (anchor a) (offset a) (rotation a) (scale a) (loop a) (freezeFrame a)
     (flipVertical a) (flipHorizontal a) (drawWidth a) (drawHeight a)
     (width a) (height a).

Definition set_resolveDonePlaying (v : option nat) (a : AnimationImpl) : AnimationImpl :=
  mk (sprites a) (speed a) (currentFrame a) (_elapsedTime a) v
     (anchor a) (offset a) (rotation a) (scale a) (loop a) (freezeFrame a)
     (flipVertical a) (flipHorizontal a) (drawWidth a) (drawHeight a)
     (width a) (height a).

Definition set_drawSize (w h : Z) (a : AnimationImpl) : AnimationImpl :=
  mk (sprites a) (speed a) (currentFrame a) (_elapsedTime a) (_resolveDonePlaying a)
     (anchor a) (offset a) (rotation a) (scale a) (loop a) (freezeFrame a)
     (flipVertical a) (flipHorizontal a) w h
     (width a) (height a).

(** [new AnimationImpl(engine, sprites, speed, loop)].  [now] is the value
    of [Date.now()] when the field initialisers run; [loop] is [None] when
    the argument is left out. *)
Definition new (now : Z) (sprites : list Sprite.t) (speed : Z)
    (loop : option bool) : AnimationImpl :=
  let first := head sprites in
  mk sprites speed (JS.Int 0) now None
     Vector_Half Vector_Zero 0%Q Vector_One
     (default true loop)
     (match first with Some _ => JS.length sprites - 1 | None => -1 end)
     false false
     (from_option Sprite.drawWidth 0 first)
     (from_option Sprite.drawHeight 0 first)
     (from_option Sprite.width 0 first)
     (from_option Sprite.height 0 first).

(** [get localBounds()] *)
Definition localBounds (a : AnimationImpl) : BoundingBox :=
  match JS.index (sprites a) (currentFrame a) with
  | Some sprite => Sprite.localBounds sprite
  | None => new_BoundingBox
  end.

(** [reset()] *)
Definition reset (a : AnimationImpl) : AnimationImpl :=
  set_currentFrame (JS.Int 0) a.

(** [isDone()] *)
Definition isDone (a : AnimationImpl) : bool :=
  negb (loop a) && JS.ge (currentFrame a) (JS.length (sprites a)).

(** [tick(delta)] *)
Definition tick (delta : Z) (a : AnimationImpl) : AnimationImpl :=
  let a1 :=
    if speed a <=? _elapsedTime a then
      set_elapsedTime 0
        (set_currentFrame
           (if loop a
            then JS.rem (JS.add (currentFrame a) 1) (JS.length (sprites a))
            else JS.add (currentFrame a) 1)
           a)
    else a in
  set_elapsedTime (_elapsedTime a1 + delta) a1.

(** [skip(frames)] *)
Definition skip (frames : Z) (a : AnimationImpl) : AnimationImpl :=
  set_currentFrame
    (JS.rem (JS.add (currentFrame a) frames) (JS.length (sprites a))) a.

(** One frame step from the current frame: the next position, wrapped
    modulo the length of the sequence when the animation loops. *)
Definition next_frame (a : AnimationImpl) : JS.number :=
  if loop a
  then JS.rem (JS.add (currentFrame a) 1) (JS.length (sprites a))
  else JS.add (currentFrame a) 1.

(** *** The world around an animation

    What [draw] and [play] do beyond the instance is recorded in a log,
    most recent event first: the sprites handed to the canvas, the
    requests made to the engine, and the calls of [resolve] functions
    together with their effect on the futures. *)

Inductive event : Type :=
| SpriteDraw (index : nat) (x y : Z)    (* sprites[index].draw(ctx, x, y) *)
| PlayAnimation (x y : Z)               (* engine.playAnimation(this, x, y) *)
| ResolveCalled (future : nat)          (* a resolve function is called *)
| Fulfilled (future : nat).             (* the future becomes fulfilled *)

#[global] Instance event_eq_dec : EqDecision event.
Proof. solve_decision. Defined.

Inductive promise : Type := Pending | Settled.

#[global] Instance promise_eq_dec : EqDecision promise.
Proof. solve_decision. Defined.

Record World : Type := mkWorld {
  anim : AnimationImpl;
  promises : list promise;     (* the futures made so far, by number *)
  log : list event
}.

Inductive Result (A : Type) : Type :=
| Returns (v : A) (w : World)
| Throws (w : World).           (* a TypeError escapes the method *)
Arguments Returns {A} v w.
Arguments Throws {A} w.

Definition Exec (A : Type) : Type := World -> Result A.

#[global] Instance Exec_ret : MRet Exec := fun A v w => Returns v w.
#[global] Instance Exec_bind : MBind Exec := fun A B k m w =>
  match m w with
  | Returns v w1 => k v w1
  | Throws w1 => Throws w1
  end.

Definition this : Exec AnimationImpl := fun w => Returns (anim w) w.
Definition update (f : AnimationImpl -> AnimationImpl) : Exec unit :=
  fun w => Returns tt (mkWorld (f (anim w)) (promises w) (log w)).
Definition emit (e : event) : Exec unit :=
  fun w => Returns tt (mkWorld (anim w) (promises w) (e :: log w)).
Definition throw {A : Type} : Exec A := fun w => Throws w.

Definition world_of {A : Type} (r : Result A) : World :=
  match r with
  | Returns _ w => w
  | Throws w => w
  end.

Definition threw {A : Type} (r : Result A) : bool :=
  match r with
  | Returns _ _ => false
  | Throws _ => true
  end.

(** Calling the [resolve] function of a future: the first call fulfils
    it, every later call is ignored. *)
Definition call_resolve (future : nat) : Exec unit := fun w =>
  match promises w !! future with
  | Some Pending =>
      Returns tt (mkWorld (anim w) (<[future := Settled]> (promises w))
                          (Fulfilled future :: ResolveCalled future :: log w))
  | _ => Returns tt (mkWorld (anim w) (promises w) (ResolveCalled future :: log w))
  end.

(** [new Promise(executor)]: the executor runs at once and receives the
    [resolve] function of the new future. *)
Definition new_Promise (executor : nat -> Exec unit) : Exec nat := fun w =>
  let future := List.length (promises w) in
  match executor future (mkWorld (anim w) (promises w ++ [Pending]) (log w)) with
  | Returns _ w1 => Returns future w1
  | Throws w1 => Throws w1
  end.

(** A function object is truthy, whatever it would return when called. *)
Definition truthy_function {A B : Type} (f : A -> B) : bool := true.

(** [_updateValues()] *)
Definition _updateValues : Exec unit :=
  update (fun a =>
    set_sprites
      (map (Sprite.set_transform (anchor a) (rotation a) (scale a)) (sprites a)) a).

Definition position (i : JS.number) : nat :=
  match i with
  | JS.Int z => Z.to_nat z
  | JS.NaN => 0%nat
  end.

(** [draw(ctx, x, y)].  [currSprite] is kept as the position of the sprite
    in [sprites]. *)
Definition draw (x y : Z) : Exec unit :=
  _updateValues ;;
  a ← this;
  currSprite ←
    (if JS.lt (currentFrame a) (JS.length (sprites a)) then
       match JS.index (sprites a) (currentFrame a) with
       | Some sprite =>
           let i := position (currentFrame a) in
           update (set_sprites
             (<[i := Sprite.set_flip (flipVertical a) (flipHorizontal a) sprite]>
                (sprites a))) ;;
           emit (SpriteDraw i x y) ;;
           mret (Some i)
       | None => throw
       end
     else mret None);
  a ← this;
  currSprite ←
    (if negb (freezeFrame a =? -1)
        && JS.ge (currentFrame a) (JS.length (sprites a)) then
       let i := JS.Int (clamp (freezeFrame a) 0 (JS.length (sprites a) - 1)) in
       match JS.index (sprites a) i with
       | Some _ => emit (SpriteDraw (position i) x y) ;; mret (Some (position i))
       | None => throw
       end
     else mret currSprite);
  a ← this;
  match currSprite ≫= (sprites a !!.) with
  | Some sprite =>
      update (set_drawSize (Sprite.drawWidth sprite) (Sprite.drawHeight sprite))
  | None => mret tt
  end ;;
  a ← this;
  match _resolveDonePlaying a with
  | Some resolve => if truthy_function isDone then call_resolve resolve else mret tt
  | None => mret tt
  end.

(** [play(x, y)]; the result is the number of the future it returns. *)
Definition play (x y : Z) : Exec nat :=
  update reset ;;
  emit (PlayAnimation x y) ;;
  new_Promise (fun resolve => update (set_resolveDonePlaying (Some resolve))).

(** *** Sequences of calls *)

Inductive op : Type :=
| Tick (delta : Z)
| Skip (frames : Z)
| Reset
| Draw (x y : Z)
| Play (x y : Z).

(** One call; when [draw] throws, the world is the one it left behind and
    the caller carries on. *)
Definition step (o : op) (w : World) : World :=
  match o with
  | Tick delta => world_of (update (tick delta) w)
  | Skip frames => world_of (update (skip frames) w)
  | Reset => world_of (update reset w)
  | Draw x y => world_of (draw x y w)
  | Play x y => world_of (play x y w)
  end.

Fixpoint run (ops : list op) (w : World) : World :=
  match ops with
  | [] => w
  | o :: ops' => run ops' (step o w)
  end.

(** A sprite of the given size, for examples. *)
Definition frame (size : Z) : Sprite.t :=
  Sprite.mk Vector_Half 0%Q Vector_One false false size size size size
            (mkBoundingBox 0 0 size size).

(** A newly constructed animation in a world where nothing has happened. *)
Definition fresh (now : Z) (sprites : list Sprite.t) (speed : Z)
    (loop : option bool) : World :=
  mkWorld (new now sprites speed loop) [] [].

(** *** Observations on a world *)

(** The calls of resolve functions and their effects, latest first. *)
Definition is_resolution (e : event) : bool :=
  match e with
  | ResolveCalled _ | Fulfilled _ => true
  | _ => false
  end.

Definition resolutions (w : World) : list event :=
  List.filter is_resolution (log w).

(** How often the future has become fulfilled. *)
Definition fulfilments (future : nat) (w : World) : nat :=
  count_occ event_eq_dec (log w) (Fulfilled future).

(** The sprites handed to the canvas, latest first. *)
Definition is_paint (e : event) : bool :=
  match e with
  | SpriteDraw _ _ _ => true
  | _ => false
  end.

Definition painted (w : World) : list event :=
  List.filter is_paint (log w).

Definition is_draw (o : op) : bool :=
  match o with
  | Draw _ _ => true
  | _ => false
  end.

(** Calls that skip ahead, not back. *)
Definition skips_ahead (o : op) : Prop :=
  match o with
  | Skip frames => 0 <= frames
  | _ => True
  end.

Definition tick_or_draw (o : op) : Prop :=
  match o with
  | Tick _ | Draw _ _ => True
  | _ => False
  end.

(** The states an animation constructed without frames can be in. *)
Definition empty_state (w : World) : Prop :=
  sprites (anim w) = []
  /\ freezeFrame (anim w) = -1
  /\ (currentFrame (anim w) = JS.NaN
      \/ exists z, currentFrame (anim w) = JS.Int z /\ 0 <= z).

(** The log and the futures agree: a future has become fulfilled at most
    once, and if it has, it is settled. *)
Definition coherent (w : World) : Prop :=
  forall f, fulfilments f w = 0%nat
            \/ (fulfilments f w = 1%nat /\ promises w !! f = Some Settled).

(** From the future number [n] on: the armed waiter is a future that
    exists and is not older than [n]. *)
Definition armed_from (n : nat) (w : World) : Prop :=
  exists k, _resolveDonePlaying (anim w) = Some k
            /\ (n <= k < List.length (promises w))%nat.

End Animation.

(** ** [GraphicsGroup]

    The members of a group are static graphics, animations, or groups.  The
    [Animation] of this directory ([./Animation]) and the static graphics are
    given from outside: a type of animations with its [tick] and [reset],
    and a type of static graphics that has neither.  Members are distinct
    objects and no group contains itself. *)

Module GraphicsGroup.

Section Members.

Context {Static Anim : Type}.
Variable anim_tick : Z -> Anim -> Anim.
Variable anim_reset : Anim -> Anim.

(** A [Graphic]; a [Group] carries its [members], each a
    [GraphicsGrouping] of [pos] and [graphic]. *)
#[local] Unset Elimination Schemes.
Inductive Graphic : Type :=
| Image (s : Static)
| Animation (a : Anim)
| Group (members : list (Vector * Graphic)).
#[local] Set Elimination Schemes.

(** Induction on a graphic, with the property at hand for every member
    of a group. *)
Section Induction.

Variable P : Graphic -> Prop.
Hypothesis P_Image : forall s, P (Image s).
Hypothesis P_Animation : forall a, P (Animation a).
Hypothesis P_Group :
  forall ms, Forall (fun member => P (snd member)) ms -> P (Group ms).

Fixpoint Graphic_ind (g : Graphic) : P g :=
  match g with
  | Image s => P_Image s
  | Animation a => P_Animation a
  | Group ms =>
      P_Group ms
        ((fix members_ind (ms : list (Vector * Graphic)) :
            Forall (fun member => P (snd member)) ms :=
            match ms with
            | [] => @List.Forall_nil _ _
            | member :: ms' =>
                @List.Forall_cons _ _ member ms'
                  (Graphic_ind (snd member)) (members_ind ms')
            end) ms)
  end.

End Induction.

Definition members (g : Graphic) : list (Vector * Graphic) :=
  match g with
  | Group ms => ms
  | _ => []
  end.

(** [_isAnimationOrGroup(graphic)] *)
Definition _isAnimationOrGroup (g : Graphic) : bool :=
  match g with
  | Animation _ | Group _ => true
  | Image _ => false
  end.

(** What [graphic.tick(elapsedMilliseconds)] leaves of the receiver; on a
    group this is [GraphicsGroup.tick].  The loop never calls it on a static
    image, which has no [tick]: see [call_tick] below for the call itself. *)
Fixpoint tick (elapsedMilliseconds : Z) (g : Graphic) : Graphic :=
  match g with
  | Image s => Image s
  | Animation a => Animation (anim_tick elapsedMilliseconds a)
  | Group ms =>
      Group (map (fun member =>
               let maybeAnimation := snd member in
               if _isAnimationOrGroup maybeAnimation
               then (fst member, tick elapsedMilliseconds maybeAnimation)
               else member) ms)
  end.

(** The method call [graphic.tick(elapsedMilliseconds)], by the class of
    the receiver.  An animation has its own [tick] and a group has
    [GraphicsGroup.tick], the loop over its members, which stops at the
    first call that fails.  A static image has no [tick]: it is the type
    guard [_isAnimationOrGroup] that makes the call in the loop well typed.
    A call on a static image therefore fails, which is [None]. *)
Fixpoint call_tick (elapsedMilliseconds : Z) (g : Graphic) : option Graphic :=
  match g with
  | Image _ => None
  | Animation a => Some (Animation (anim_tick elapsedMilliseconds a))
  | Group ms =>
      Group <$>
        (fix each (ms : list (Vector * Graphic))
           : option (list (Vector * Graphic)) :=
           match ms with
           | [] => Some []
           | member :: rest =>
               let maybeAnimation := snd member in
               member' ←
                 (if _isAnimationOrGroup maybeAnimation
                  then (fun ticked => (fst member, ticked))
                         <$> call_tick elapsedMilliseconds maybeAnimation
                  else Some member);
               rest' ← each rest;
               Some (member' :: rest')
           end) ms
  end.

(** [graphic.reset()] *)
Fixpoint reset (g : Graphic) : Graphic :=
  match g with
  | Image s => Image s
  | Animation a => Animation (anim_reset a)
  | Group ms =>
      Group (map (fun member =>
               let maybeAnimation := snd member in
               if _isAnimationOrGroup maybeAnimation
               then (fst member, reset maybeAnimation)
               else member) ms)
  end.

(** The animations and the static graphics of a graphic, at any depth,
    in drawing order. *)
Fixpoint animations (g : Graphic) : list Anim :=
  match g with
  | Image _ => []
  | Animation a => [a]
  | Group ms => concat (map (fun member => animations (snd member)) ms)
  end.

Fixpoint statics (g : Graphic) : list Static :=
  match g with
  | Image s => [s]
  | Animation _ => []
  | Group ms => concat (map (fun member => statics (snd member)) ms)
  end.

(** What [tick] is claimed to do to one member. *)
Definition forwarded (elapsedMilliseconds : Z) (g : Graphic) : Graphic :=
  match g with
  | Image s => Image s
  | Animation a => Animation (anim_tick elapsedMilliseconds a)
  | Group ms => tick elapsedMilliseconds (Group ms)
  end.

End Members.

Arguments Graphic : clear implicits.

End GraphicsGroup.

(** ** [OffscreenCullingModule]

    Coordinates, sizes and scales are rationals; the scale of an actor is
    taken to be non-zero on both axes. *)

Module OffscreenCulling.

Local Open Scope Q_scope.

Definition Qltb (x y : Q) : bool :=
  match x ?= y with
  | Lt => true
  | _ => false
  end.

Record Point : Type := mkPoint { px : Q; py : Q }.

Inductive GameEvent : Type := ExitViewPortEvent | EnterViewPortEvent.

Record Actor : Type := mkActor {
  eventDispatcher : list (string * GameEvent);  (* published, latest first *)
  anchor : Point;
  getGlobalScale : Point;
  scale : Point;
  getWidth : Q;
  getHeight : Q;
  getGlobalX : Q;
  getGlobalY : Q;
  (** [Some zoom] when [actor.scene && actor.scene.camera] is truthy, with
      [zoom] the result of [camera.getZoom()] *)
  camera : option Q;
  isOffScreen : bool
}.

Record Engine : Type := mkEngine {
  worldToScreenCoordinates : Point -> Point;
  width : Q;
  height : Q
}.

(** [eventDispatcher.publish(name, event)] followed by
    [actor.isOffScreen = flag] *)
Definition publish_and_flag (name : string) (event : GameEvent) (flag : bool)
    (actor : Actor) : Actor :=
  mkActor ((name, event) :: eventDispatcher actor) (anchor actor)
          (getGlobalScale actor) (scale actor) (getWidth actor)
          (getHeight actor) (getGlobalX actor) (getGlobalY actor)
          (camera actor) flag.

(** The values [update] computes before it looks at the flag. *)
Record Screen : Type := mkScreen {
  actorScreenCoords : Point;
  s_width : Q;
  s_height : Q;
  zoom : Q
}.

Definition screen (actor : Actor) (engine : Engine) : Screen :=
  let globalScale := getGlobalScale actor in
  let width := px globalScale * getWidth actor / px (scale actor) in
  let height := py globalScale * getHeight actor / py (scale actor) in
  let actorScreenCoords :=
    worldToScreenCoordinates engine
      (mkPoint (getGlobalX actor - px (anchor actor) * width)
               (getGlobalY actor - py (anchor actor) * height)) in
  let zoom := match camera actor with Some z => z | None => 1 end in
  mkScreen actorScreenCoords width height zoom.

(** The condition of the first branch. *)
Definition exits (s : Screen) (engine : Engine) : bool :=
  Qltb (px (actorScreenCoords s) + s_width s * zoom s) 0
  || Qltb (py (actorScreenCoords s) + s_height s * zoom s) 0
  || Qltb (width engine) (px (actorScreenCoords s))
  || Qltb (height engine) (py (actorScreenCoords s)).

(** The condition of the second branch. *)
Definition enters (s : Screen) (engine : Engine) : bool :=
  Qltb 0 (px (actorScreenCoords s) + s_width s * zoom s)
  && Qltb 0 (py (actorScreenCoords s) + s_height s * zoom s)
  && Qltb (px (actorScreenCoords s)) (width engine)
  && Qltb (py (actorScreenCoords s)) (height engine).

(** [update(actor, engine, delta)] *)
Definition update (actor : Actor) (engine : Engine) (delta : Q) : Actor :=
  let s := screen actor engine in
  if negb (isOffScreen actor) then
    if exits s engine
    then publish_and_flag "exitviewport" ExitViewPortEvent true actor
    else actor
  else
    if enters s engine
    then publish_and_flag "enterviewport" EnterViewPortEvent false actor
    else actor.

(** The edges of the zoomed rectangle on the screen. *)
Definition left_edge (s : Screen) : Q := px (actorScreenCoords s).
Definition top_edge (s : Screen) : Q := py (actorScreenCoords s).
Definition right_edge (s : Screen) : Q := px (actorScreenCoords s) + s_width s * zoom s.
Definition bottom_edge (s : Screen) : Q := py (actorScreenCoords s) + s_height s * zoom s.

(** The events [update] published, latest first. *)
Definition published (before after : Actor) : list (string * GameEvent) :=
  take (List.length (eventDispatcher after) - List.length (eventDispatcher before))
       (eventDispatcher after).

(** The zoomed rectangle lies against a tested boundary: no edge is beyond
    its boundary, and one of them is exactly on it. *)
Definition touches_boundary (s : Screen) (engine : Engine) : Prop :=
  0 <= right_edge s /\ 0 <= bottom_edge s
  /\ left_edge s <= width engine /\ top_edge s <= height engine
  /\ (right_edge s == 0 \/ bottom_edge s == 0
      \/ left_edge s == width engine \/ top_edge s == height engine).

(** An 800 x 600 viewport whose screen coordinates are the world
    coordinates, and a 10 x 10 actor at the given place, for examples. *)
Definition viewport : Engine := mkEngine (fun p => p) 800 600.

Definition actor_at (x y zoom : Q) (offScreen : bool) : Actor :=
  mkActor [] (mkPoint 0 0) (mkPoint 1 1) (mkPoint 1 1) 10 10 x y
          (Some zoom) offScreen.

End OffscreenCulling.

(** ** More of [AnimationImpl]: repeated calls, the frame that [draw]
    paints, and the [loaded] getter *)

Module Playback.

Import Animation.

(** [tick(d1); tick(d2); ...] *)
Fixpoint ticks (deltas : list Z) (a : AnimationImpl) : AnimationImpl :=
  match deltas with
  | [] => a
  | delta :: deltas' => ticks deltas' (tick delta a)
  end.

(** The sum of the arguments of a series of [tick] calls. *)
Definition total (deltas : list Z) : Z := fold_right Z.add 0 deltas.

(** The position in [sprites] that a call of [draw] hands to the canvas:
    the current frame while [currentFrame] is an index, and the clamped
    freeze frame once [currentFrame] is at or beyond the length. *)
Definition frame_to_paint (a : AnimationImpl) : option nat :=
  match currentFrame a with
  | JS.Int z =>
      if (0 <=? z) && (z <? JS.length (sprites a)) then Some (Z.to_nat z)
      else if (JS.length (sprites a) <=? z) && negb (freezeFrame a =? -1)
              && (0 <? JS.length (sprites a))
      then Some (Z.to_nat (clamp (freezeFrame a) 0 (JS.length (sprites a) - 1)))
      else None
  | JS.NaN => None
  end.

(** The states in which [draw] runs into an undefined sprite. *)
Definition draw_fails (a : AnimationImpl) : bool :=
  match currentFrame a with
  | JS.Int z =>
      (z <? 0)
      || ((JS.length (sprites a) =? 0) && negb (freezeFrame a =? -1))
  | JS.NaN => false
  end.

(** What [draw] has added to the canvas log. *)
Definition paints (i : option nat) (x y : Z) : list event :=
  match i with
  | Some i => [SpriteDraw i x y]
  | None => []
  end.

(** A sprite carries the transform of the animation. *)
Definition transformed (a : AnimationImpl) (s : Sprite.t) : Prop :=
  Sprite.anchor s = anchor a
  /\ Sprite.rotation s = rotation a
  /\ Sprite.scale s = scale a.

(** [get loaded()], on the cached flag [_loaded] and the [loaded] flags of
    the sprites in order; the result comes with the new value of
    [_loaded]. *)
Definition loaded (_loaded : bool) (sprites : list bool) : bool * bool :=
  if _loaded then (true, _loaded)
  else
    let all :=
      fold_left (fun loaded sprite => sprite && loaded) sprites true in
    (all, all).

(** Reading [loaded] again and again while the sprites load: each entry of
    [snapshots] is the list of [loaded] flags of the sprites at one
    reading. *)
Fixpoint loaded_readings (_loaded : bool) (snapshots : list (list bool))
    : list bool :=
  match snapshots with
  | [] => []
  | sprites :: snapshots' =>
      fst (loaded _loaded sprites)
      :: loaded_readings (snd (loaded _loaded sprites)) snapshots'
  end.

(** A sequence of calls with its [draw] calls left out. *)
Definition without_draws (ops : list op) : list op :=
  List.filter (fun o => negb (is_draw o)) ops.

(** Two worlds whose animations are at the same point of their clock. *)
Definition same_clock (w1 w2 : World) : Prop :=
  currentFrame (anim w1) = currentFrame (anim w2)
  /\ _elapsedTime (anim w1) = _elapsedTime (anim w2)
  /\ loop (anim w1) = loop (anim w2)
  /\ speed (anim w1) = speed (anim w2)
  /\ JS.length (sprites (anim w1)) = JS.length (sprites (anim w2)).

End Playback.

(** ** More of [GraphicsGroup]: [_drawImage] *)

Module GroupDrawing.

Import GraphicsGroup.

Section Drawing.

Context {Static Anim : Type}.

(** The calls [_drawImage] makes, on the graphics context [ex] and on the
    graphics of its members. *)
Inductive command : Type :=
| Save                                               (* ex.save() *)
| Translate (x y : Q)                                (* ex.translate(x, y) *)
| DrawGraphic (g : Graphic Static Anim) (x y : Q)    (* graphic.draw(ex, x, y) *)
| DrawDebugRect (x y w h : Q)                        (* ex.drawDebugRect(x, y, w, h) *)
| Restore.                                           (* ex.restore() *)

(** [_drawImage(ex, x, y)] of a group with the given [members], [showDebug],
    [width] and [height]: the calls it makes, first call first. *)
Definition _drawImage (members : list (Vector * Graphic Static Anim))
    (showDebug : bool) (width height : Q) (x y : Q) : list command :=
  flat_map
    (fun member =>
       [Save; Translate x y;
        DrawGraphic (snd member) (vx (fst member)) (vy (fst member))]
       ++ (if showDebug then [DrawDebugRect 0 0 width height] else [])
       ++ [Restore])
    members.

(** How many [save]s are open after a series of calls. *)
Fixpoint depth (open : Z) (calls : list command) : Z :=
  match calls with
  | [] => open
  | Save :: calls' => depth (open + 1) calls'
  | Restore :: calls' => depth (open - 1) calls'
  | _ :: calls' => depth open calls'
  end.

(** The graphics drawn by a series of calls, with their positions. *)
Fixpoint drawn (calls : list command) : list (Vector * Graphic Static Anim) :=
  match calls with
  | [] => []
  | DrawGraphic g x y :: calls' => (mkVector x y, g) :: drawn calls'
  | _ :: calls' => drawn calls'
  end.

End Drawing.

Arguments command : clear implicits.

End GroupDrawing.

(** ** An actor that moves between evaluations of the culling module *)

Module Patrol.

Import OffscreenCulling.

Local Open Scope Q_scope.

(** The actor after it has been moved to another place; everything else,
    the flag and the published events included, stays. *)
Definition move_to (x y : Q) (actor : Actor) : Actor :=
  mkActor (eventDispatcher actor) (anchor actor) (getGlobalScale actor)
          (scale actor) (getWidth actor) (getHeight actor) x y
          (camera actor) (isOffScreen actor).

(** The actor visits the places one after the other and is evaluated once
    at each. *)
Fixpoint patrol (places : list (Q * Q)) (actor : Actor) (engine : Engine)
    (delta : Q) : Actor :=
  match places with
  | [] => actor
  | (x, y) :: places' =>
      patrol places' (update (move_to x y actor) engine delta) engine delta
  end.

(** [update] called [n] times on an actor that does not move. *)
Fixpoint evaluate (n : nat) (actor : Actor) (engine : Engine) (delta : Q)
    : Actor :=
  match n with
  | O => actor
  | S n' => evaluate n' (update actor engine delta) engine delta
  end.

(** No two events next to each other are of the same kind. *)
Fixpoint alternating (events : list (string * GameEvent)) : Prop :=
  match events with
  | e1 :: (e2 :: _) as rest => snd e1 <> snd e2 /\ alternating rest
  | _ => True
  end.

(** The flag says what the latest event said. *)
Definition flag_follows_events (actor : Actor) : Prop :=
  match eventDispatcher actor with
  | (_, ExitViewPortEvent) :: _ => isOffScreen actor = true
  | (_, EnterViewPortEvent) :: _ => isOffScreen actor = false
  | [] => True
  end.

End Patrol.

(** * Properties *)

Example clamp_larger : clamp 20 4 10 = 10.
Proof. reflexivity. Qed.

Example clamp_smaller : clamp 2 4 10 = 4.
Proof. reflexivity. Qed.

Example clamp_inside : clamp 6 4 10 = 6.
Proof. reflexivity. Qed.

Module JSFacts.

Import JS.

Lemma length_pos {A : Type} (arr : list A) : arr <> [] -> 0 < length arr.
Proof. destruct arr; [congruence | unfold length; simpl; lia]. Qed.

Lemma rem_zero (a : number) : rem a 0 = NaN.
Proof. destruct a; reflexivity. Qed.

(** On a non-negative dividend and a positive divisor [%] is the usual
    remainder. *)
Lemma rem_nonneg (z n : Z) :
  0 <= z -> 0 < n -> rem (Int z) n = Int (z mod n).
Proof.
  intros Hz Hn. unfold rem.
  destruct (Z.eqb_spec n 0) as [->|_]; [lia|].
  now rewrite Z.rem_mod_nonneg by lia.
Qed.

(** Whatever the sign of the dividend, the remainder is strictly between
    [-n] and [n], and it is not negative when the dividend is not. *)
Lemma rem_bound (z n : Z) :
  0 < n ->
  exists r, rem (Int z) n = Int r /\ - n < r < n /\ (0 <= z -> 0 <= r).
Proof.
  intros Hn. unfold rem.
  destruct (Z.eqb_spec n 0) as [->|Hne]; [lia|].
  exists (Z.rem z n). split; [reflexivity|].
  pose proof (Z.rem_bound_pos_neg z n) as Hneg.
  pose proof (Z.rem_bound_pos_pos z n) as Hpos.
  destruct (Z_le_gt_dec 0 z); lia.
Qed.

Lemma index_valid {A : Type} (arr : list A) (i : number) :
  valid_index arr i <-> is_Some (index arr i).
Proof.
  unfold valid_index, index, length. split.
  - intros (z & -> & Hz).
    destruct (Z.ltb_spec z 0); [lia|].
    apply lookup_lt_is_Some. lia.
  - destruct i as [z|]; [|intros [? ?]; discriminate].
    destruct (Z.ltb_spec z 0); [intros [? ?]; discriminate|].
    intros Hs. apply lookup_lt_is_Some in Hs. exists z. split; [reflexivity|lia].
Qed.

End JSFacts.

Module AnimationFacts.

Import JS Animation JSFacts.

(** ** The clock *)

Lemma tick_due (a : AnimationImpl) (delta : Z) :
  speed a <= _elapsedTime a ->
  tick delta a = set_elapsedTime delta (set_currentFrame (next_frame a) a).
Proof.
  intros H. unfold tick, next_frame.
  destruct (Z.leb_spec (speed a) (_elapsedTime a)); [reflexivity | lia].
Qed.

Lemma tick_not_due (a : AnimationImpl) (delta : Z) :
  _elapsedTime a < speed a ->
  tick delta a = set_elapsedTime (_elapsedTime a + delta) a.
Proof.
  intros H. unfold tick.
  destruct (Z.leb_spec (speed a) (_elapsedTime a)); [lia | reflexivity].
Qed.

Lemma tick_keeps (a : AnimationImpl) (delta : Z) :
  sprites (tick delta a) = sprites a /\ loop (tick delta a) = loop a
  /\ speed (tick delta a) = speed a /\ freezeFrame (tick delta a) = freezeFrame a
  /\ _resolveDonePlaying (tick delta a) = _resolveDonePlaying a.
Proof.
  unfold tick. destruct (speed a <=? _elapsedTime a); repeat split.
Qed.

(** The frame a call of [tick] leaves does not depend on its argument. *)
Lemma tick_frame_independent (a : AnimationImpl) (delta delta' : Z) :
  currentFrame (tick delta a) = currentFrame (tick delta' a).
Proof.
  unfold tick. destruct (speed a <=? _elapsedTime a); reflexivity.
Qed.

Lemma next_frame_int (a : AnimationImpl) (z : Z) :
  currentFrame a = Int z -> 0 <= z -> sprites a <> [] ->
  next_frame a =
    Int (if loop a then (z + 1) mod length (sprites a) else z + 1).
Proof.
  intros Hc Hz Hne. unfold next_frame. rewrite Hc. simpl.
  destruct (loop a); [|reflexivity].
  apply rem_nonneg; [lia | now apply length_pos].
Qed.

(** C2, as the specification words it, fails on the code: a new looping
    animation of 4 frames with a frame duration of 100 ms, ticked once
    with 250, ends on frame 1 with the accumulator at 250, not 150; and no
    construction time from 0 on leaves the accumulator at 150. *)
Lemma tick_250_accumulator_is_not_150 :
  (let a := tick 250 (new 1700000000000 [frame 8; frame 8; frame 8; frame 8]
                          100 (Some true)) in
   currentFrame a = Int 1 /\ _elapsedTime a = 250 /\ _elapsedTime a <> 150)
  /\ ~ (exists now, 0 <= now /\
          _elapsedTime (tick 250 (new now [frame 8; frame 8; frame 8; frame 8]
                                      100 (Some true))) = 150).
Proof.
  split.
  - simpl. repeat split. discriminate.
  - intros (now & Hnow & H). unfold tick in H. simpl in H.
    destruct (Z.leb_spec 100 now); simpl in H; lia.
Qed.

(** C2, amended: [tick(delta)] tests the accumulator as it stands before
    [delta] is added.  When it has reached the frame duration, [tick]
    advances exactly one frame and restarts the accumulator at 0; in both
    cases it then adds [delta].  So the accumulator ends at [delta] when a
    frame was advanced and at its old value plus [delta] otherwise.  A new
    looping animation of 4 frames with a frame duration of 100 ms,
    constructed at a time of at least 100, ends after one [tick(250)] on
    frame 1 with the accumulator at 250. *)
Theorem tick_checks_then_accumulates
    (a : AnimationImpl) (delta now : Z) (s0 s1 s2 s3 : Sprite.t)
    (lp : option bool) :
  (speed a <= _elapsedTime a ->
     currentFrame (tick delta a) = next_frame a
     /\ _elapsedTime (tick delta a) = 0 + delta)
  /\ (_elapsedTime a < speed a ->
     currentFrame (tick delta a) = currentFrame a
     /\ _elapsedTime (tick delta a) = _elapsedTime a + delta)
  /\ (100 <= now -> lp <> Some false ->
     currentFrame (tick 250 (new now [s0; s1; s2; s3] 100 lp)) = Int 1
     /\ _elapsedTime (tick 250 (new now [s0; s1; s2; s3] 100 lp)) = 250).
Proof.
  split; [|split].
  - intros H. now rewrite tick_due.
  - intros H. now rewrite tick_not_due.
  - intros Hnow Hlp. rewrite tick_due by (simpl; lia).
    split; [|reflexivity].
    destruct lp as [[|]|]; [reflexivity | congruence | reflexivity].
Qed.

Lemma tick_checks_then_accumulates_witness :
  let due := new 1700000000000 [frame 8; frame 8; frame 8; frame 8] 100 None in
  let early := tick 30 due in
  (currentFrame (tick 250 due) = Int 1 /\ _elapsedTime (tick 250 due) = 250)
  /\ (currentFrame (tick 20 early) = Int 1 /\ _elapsedTime (tick 20 early) = 50).
Proof.
  split.
  - apply (tick_checks_then_accumulates
             (new 1700000000000 [frame 8; frame 8; frame 8; frame 8] 100 None)
             250 1700000000000 (frame 8) (frame 8) (frame 8) (frame 8) None);
      [lia | discriminate].
  - apply (tick_checks_then_accumulates
             (tick 30 (new 1700000000000 [frame 8; frame 8; frame 8; frame 8] 100 None))
             20 1700000000000 (frame 8) (frame 8) (frame 8) (frame 8) None).
    simpl. lia.
Defined.

(** C6: one call of [tick] moves [currentFrame] by at most one frame step.
    It either leaves it where it was or sets it to the next position,
    wrapped modulo the length of the sequence when the animation loops;
    the argument of the call has no influence on which of the two
    happens, however large it is. *)
Theorem tick_at_most_one_frame (a : AnimationImpl) (delta : Z) :
  (currentFrame (tick delta a) = currentFrame a
   \/ currentFrame (tick delta a) = next_frame a)
  /\ (forall delta', currentFrame (tick delta' a) = currentFrame (tick delta a))
  /\ (forall z, currentFrame a = Int z -> 0 <= z -> sprites a <> [] ->
      exists z', currentFrame (tick delta a) = Int z'
        /\ (z' = z
            \/ (loop a = true /\ z' = (z + 1) mod length (sprites a))
            \/ (loop a = false /\ z' = z + 1))).
Proof.
  split; [|split].
  - destruct (Z_le_gt_dec (speed a) (_elapsedTime a)).
    + right. now rewrite tick_due.
    + left. now rewrite tick_not_due by lia.
  - intros delta'. apply tick_frame_independent.
  - intros z Hc Hz Hne.
    destruct (Z_le_gt_dec (speed a) (_elapsedTime a)).
    + rewrite tick_due by assumption. simpl.
      rewrite (next_frame_int a z) by assumption.
      destruct (loop a); eexists; (split; [reflexivity|]); auto.
    + rewrite tick_not_due by lia. simpl. exists z. auto.
Qed.

Lemma tick_at_most_one_frame_witness :
  let a := tick 5 (tick 5 (skip 3 (new 1000 [frame 8; frame 8; frame 8; frame 8]
                                       100 None))) in
  exists z', currentFrame (tick 1000000 a) = Int z'
    /\ (z' = 0
        \/ (loop a = true /\ z' = (0 + 1) mod length (sprites a))
        \/ (loop a = false /\ z' = 0 + 1)).
Proof.
  apply (tick_at_most_one_frame
           (tick 5 (tick 5 (skip 3 (new 1000 [frame 8; frame 8; frame 8; frame 8]
                                        100 None)))) 1000000);
    [reflexivity | lia | discriminate].
Defined.

(** C10: the accumulator of a new animation holds the time of its
    construction ([Date.now()]), not 0.  When that time is at least the
    frame duration, the first [tick] takes the frame step whatever its
    argument: [currentFrame] becomes 1, wrapped modulo the length of the
    sequence when the animation loops, and the accumulator restarts from
    the argument. *)
Theorem first_tick_advances
    (now : Z) (l : list Sprite.t) (sp : Z) (lp : option bool) (delta : Z) :
  sp <= now ->
  _elapsedTime (new now l sp lp) = now
  /\ currentFrame (tick delta (new now l sp lp)) = next_frame (new now l sp lp)
  /\ _elapsedTime (tick delta (new now l sp lp)) = delta
  /\ (l <> [] ->
      currentFrame (tick delta (new now l sp lp))
      = Int (if default true lp then 1 mod length l else 1))
  /\ (lp = Some false \/ 2 <= length l ->
      currentFrame (tick delta (new now l sp lp)) = Int 1).
Proof.
  intros Hnow.
  assert (Hdue : speed (new now l sp lp) <= _elapsedTime (new now l sp lp))
    by (simpl; lia).
  rewrite (tick_due _ delta Hdue).
  assert (Hint : l <> [] ->
            next_frame (new now l sp lp)
            = Int (if default true lp then 1 mod length l else 1)).
  { intros Hne.
    rewrite (next_frame_int (new now l sp lp) 0); [reflexivity | reflexivity | lia | exact Hne]. }
  repeat split; try assumption.
  intros [-> | Hlen].
  - reflexivity.
  - simpl. rewrite Hint.
    + destruct (default true lp); [|reflexivity].
      now rewrite Z.mod_small by lia.
    + intros ->. unfold length in Hlen. simpl in Hlen. lia.
Qed.

Lemma first_tick_advances_witness :
  let a := new 1700000000000 [frame 8; frame 8; frame 8] 100 None in
  _elapsedTime a = 1700000000000
  /\ currentFrame (tick 1 a) = Int 1
  /\ _elapsedTime (tick 1 a) = 1.
Proof.
  destruct (first_tick_advances 1700000000000 [frame 8; frame 8; frame 8] 100 None 1)
    as (H1 & _ & H3 & _ & H5); [lia|].
  split; [exact H1|]. split; [|exact H3].
  apply H5. right. unfold length. simpl. lia.
Defined.

(** C9: [localBounds] never fails.  When [currentFrame] is an index of
    [sprites] it is the bounds of that sprite; otherwise (an empty list, a
    non-looping animation that is done, a negative or undefined frame) it
    is the default empty box. *)
Theorem localBounds_of_frame (a : AnimationImpl) :
  (forall z sprite,
      currentFrame a = Int z -> 0 <= z ->
      sprites a !! Z.to_nat z = Some sprite ->
      localBounds a = Sprite.localBounds sprite)
  /\ (~ valid_index (sprites a) (currentFrame a) ->
      localBounds a = new_BoundingBox)
  /\ (sprites a = [] -> localBounds a = new_BoundingBox)
  /\ (isDone a = true -> localBounds a = new_BoundingBox).
Proof.
  assert (Hinv : ~ valid_index (sprites a) (currentFrame a) ->
                 localBounds a = new_BoundingBox).
  { intros Hn. unfold localBounds.
    destruct (index (sprites a) (currentFrame a)) eqn:E; [|reflexivity].
    exfalso. apply Hn, index_valid. now exists t. }
  split; [|split; [exact Hinv|split]].
  - intros z sprite Hc Hz Hl. unfold localBounds, index. rewrite Hc.
    destruct (Z.ltb_spec z 0); [lia|]. now rewrite Hl.
  - intros He. apply Hinv. intros (z & _ & Hz).
    rewrite He in Hz. unfold length in Hz. simpl in Hz. lia.
  - intros Hd. apply Hinv. intros (z & Hc & Hz).
    unfold isDone in Hd. rewrite Hc in Hd. simpl in Hd.
    apply andb_prop in Hd as [_ Hd]. apply Z.leb_le in Hd. lia.
Qed.

Lemma localBounds_of_frame_witness :
  (localBounds (tick 1 (new 1000 [frame 3; frame 5] 100 (Some false)))
   = mkBoundingBox 0 0 5 5)
  /\ localBounds (skip (-1) (new 1000 [frame 3; frame 5] 100 None)) = new_BoundingBox
  /\ localBounds (new 1000 [] 100 None) = new_BoundingBox
  /\ localBounds (tick 1 (tick 1 (new 1000 [frame 3; frame 5] 1 (Some false))))
     = new_BoundingBox.
Proof.
  split; [|split; [|split]].
  - apply (proj1 (localBounds_of_frame
                    (tick 1 (new 1000 [frame 3; frame 5] 100 (Some false))))
                 1 (frame 5));
      [reflexivity | lia | reflexivity].
  - apply (proj1 (proj2 (localBounds_of_frame
                           (skip (-1) (new 1000 [frame 3; frame 5] 100 None))))).
    intros (z & Hc & Hz). vm_compute in Hc. injection Hc as Hc. lia.
  - apply (proj1 (proj2 (proj2 (localBounds_of_frame (new 1000 [] 100 None))))).
    reflexivity.
  - apply (proj2 (proj2 (proj2 (localBounds_of_frame
             (tick 1 (tick 1 (new 1000 [frame 3; frame 5] 1 (Some false)))))))).
    reflexivity.
Defined.

(** ** Calls and the world *)

Ltac unfold_exec :=
  unfold draw, play, new_Promise, _updateValues, call_resolve, update, emit,
    throw, this, truthy_function, mbind, mret, Exec_bind, Exec_ret;
  simpl.

Ltac exec_cases :=
  unfold_exec;
  repeat match goal with
         | |- context [match ?c with _ => _ end] =>
             lazymatch c with
             | context [match _ with _ => _ end] => fail
             | _ => destruct c eqn:?; simpl
             end
         end.

(** What [draw] leaves alone in the instance. *)
Lemma draw_keeps (x y : Z) (w : World) :
  currentFrame (anim (world_of (draw x y w))) = currentFrame (anim w)
  /\ loop (anim (world_of (draw x y w))) = loop (anim w)
  /\ speed (anim (world_of (draw x y w))) = speed (anim w)
  /\ freezeFrame (anim (world_of (draw x y w))) = freezeFrame (anim w)
  /\ _elapsedTime (anim (world_of (draw x y w))) = _elapsedTime (anim w)
  /\ _resolveDonePlaying (anim (world_of (draw x y w)))
     = _resolveDonePlaying (anim w)
  /\ length (sprites (anim (world_of (draw x y w)))) = length (sprites (anim w)).
Proof.
  destruct w as [a ps lg]. exec_cases.
  all: unfold length; simpl;
    rewrite ?length_insert, ?length_map; repeat split; congruence.
Qed.

Lemma draw_resolutions (x y : Z) (w : World) :
  (resolutions (world_of (draw x y w)) = resolutions w
   /\ promises (world_of (draw x y w)) = promises w)
  \/ exists f,
      _resolveDonePlaying (anim w) = Some f
      /\ ((promises w !! f = Some Pending
           /\ resolutions (world_of (draw x y w))
              = Fulfilled f :: ResolveCalled f :: resolutions w
           /\ promises (world_of (draw x y w)) = <[f := Settled]> (promises w))
          \/ (promises w !! f <> Some Pending
              /\ resolutions (world_of (draw x y w))
                 = ResolveCalled f :: resolutions w
              /\ promises (world_of (draw x y w)) = promises w)).
Proof.
  destruct w as [a ps lg]. unfold resolutions. exec_cases.
  all: first
    [ left; split; reflexivity
    | right; eexists; split; [reflexivity|]; left; subst;
      split; [assumption|split; reflexivity]
    | right; eexists; split; [reflexivity|]; right;
      split; [congruence|split; reflexivity] ].
Qed.

Lemma draw_painted_empty (x y : Z) (w : World) :
  sprites (anim w) = [] ->
  freezeFrame (anim w) = -1 ->
  (currentFrame (anim w) = NaN \/ exists z, currentFrame (anim w) = Int z /\ 0 <= z) ->
  threw (draw x y w) = false
  /\ painted (world_of (draw x y w)) = painted w
  /\ sprites (anim (world_of (draw x y w))) = [].
Proof.
  destruct w as [a ps lg]. destruct a. simpl. intros -> -> Hc.
  unfold painted.
  destruct Hc as [-> | (z & -> & Hz)].
  - exec_cases; repeat split; congruence.
  - exec_cases; unfold length in *; simpl in *;
      repeat match goal with
             | H : (_ <? _) = true |- _ => apply Z.ltb_lt in H
             end;
      try lia; repeat split; congruence.
Qed.

(** What the calls other than [draw] do to the world. *)
Lemma step_tick (delta : Z) (w : World) :
  step (Tick delta) w = mkWorld (tick delta (anim w)) (promises w) (log w).
Proof. reflexivity. Qed.

Lemma step_skip (frames : Z) (w : World) :
  step (Skip frames) w = mkWorld (skip frames (anim w)) (promises w) (log w).
Proof. reflexivity. Qed.

Lemma step_reset (w : World) :
  step Reset w = mkWorld (reset (anim w)) (promises w) (log w).
Proof. reflexivity. Qed.

Lemma step_play (x y : Z) (w : World) :
  step (Play x y) w
  = mkWorld (set_resolveDonePlaying (Some (List.length (promises w)))
                                    (reset (anim w)))
            (promises w ++ [Pending])
            (PlayAnimation x y :: log w).
Proof. reflexivity. Qed.

Lemma step_keeps (o : op) (w : World) :
  length (sprites (anim (step o w))) = length (sprites (anim w))
  /\ loop (anim (step o w)) = loop (anim w)
  /\ freezeFrame (anim (step o w)) = freezeFrame (anim w)
  /\ speed (anim (step o w)) = speed (anim w).
Proof.
  destruct o as [delta|frames| |x y|x y].
  - rewrite step_tick. cbn [anim].
    destruct (tick_keeps (anim w) delta) as (-> & -> & -> & -> & _).
    repeat split.
  - repeat split.
  - repeat split.
  - pose proof (draw_keeps x y w) as H. simpl. tauto.
  - repeat split.
Qed.

Lemma run_app (ops ops' : list op) (w : World) :
  run (ops ++ ops') w = run ops' (run ops w).
Proof.
  revert w. induction ops as [|o ops IH]; intros w; simpl; [reflexivity|apply IH].
Qed.

Lemma length_nonempty (l : list Sprite.t) : l <> [] <-> 0 < length l.
Proof.
  split; [apply length_pos|]. intros H ->. unfold length in H. simpl in H. lia.
Qed.

(** ** The frame index along a sequence of calls *)

Lemma skip_frame (frames : Z) (a : AnimationImpl) (z : Z) :
  currentFrame a = Int z -> 0 <= z + frames -> sprites a <> [] ->
  currentFrame (skip frames a) = Int ((z + frames) mod length (sprites a)).
Proof.
  intros Hc Hz Hne. unfold skip. cbn [currentFrame set_currentFrame].
  rewrite Hc. cbn [add]. apply rem_nonneg; [lia | now apply length_pos].
Qed.

Lemma step_frame (o : op) (w : World) (z : Z) :
  sprites (anim w) <> [] ->
  currentFrame (anim w) = Int z ->
  exists z',
    currentFrame (anim (step o w)) = Int z'
    /\ (0 <= z -> skips_ahead o -> 0 <= z')
    /\ (loop (anim w) = true -> z < length (sprites (anim w)) ->
        z' < length (sprites (anim w)))
    /\ (loop (anim w) = false -> tick_or_draw o -> z <= z').
Proof.
  intros Hne Hc. pose proof (length_pos _ Hne) as Hlen.
  destruct o as [delta|frames| |x y|x y].
  - rewrite step_tick. cbn [anim].
    destruct (Z_le_gt_dec (speed (anim w)) (_elapsedTime (anim w))).
    + rewrite tick_due by assumption.
      cbn [currentFrame set_currentFrame set_elapsedTime].
      unfold next_frame. rewrite Hc. cbn [add].
      destruct (loop (anim w)).
      * destruct (rem_bound (z + 1) _ Hlen) as (r & -> & Hr & Hr0).
        exists r. repeat split; intros; try congruence; lia.
      * exists (z + 1). repeat split; intros; try congruence; lia.
    + rewrite tick_not_due by lia. cbn. exists z. repeat split; auto; lia.
  - rewrite step_skip. cbn [anim]. unfold skip.
    cbn [currentFrame set_currentFrame]. rewrite Hc. cbn [add].
    destruct (rem_bound (z + frames) _ Hlen) as (r & -> & Hr & Hr0).
    exists r. cbn [skips_ahead tick_or_draw].
    repeat split; intros; try lia; try contradiction.
  - rewrite step_reset. cbn. exists 0. repeat split; try lia; try (intros _ []).
  - destruct (draw_keeps x y w) as (Hd & _). cbn. rewrite Hd.
    exists z. repeat split; auto; lia.
  - rewrite step_play. cbn. exists 0. repeat split; try lia; try (intros _ []).
Qed.

Lemma step_nonempty (o : op) (w : World) :
  sprites (anim w) <> [] -> sprites (anim (step o w)) <> [].
Proof.
  rewrite !length_nonempty. now destruct (step_keeps o w) as (-> & _).
Qed.

(** C4, as the specification words it, fails on the code: [skip] with a
    negative count leaves a negative frame; on an empty sequence [skip]
    leaves [NaN]; and [reset] and [skip] take a non-looping animation that
    is done back below the length of its sequence. *)
Lemma frame_index_not_invariant :
  currentFrame (anim (run [Skip (-1)] (fresh 1000 [frame 8; frame 8] 100 None)))
  = Int (-1)
  /\ currentFrame (anim (run [Skip 1] (fresh 1000 [] 100 None))) = NaN
  /\ (let w := run [Tick 100; Tick 100]
                   (fresh 1000 [frame 8; frame 8] 100 (Some false)) in
      loop (anim w) = false
      /\ currentFrame (anim w) = Int 2
      /\ length (sprites (anim w)) = 2
      /\ currentFrame (anim (step Reset w)) = Int 0
      /\ currentFrame (anim (step (Play 0 0) w)) = Int 0
      /\ currentFrame (anim (step (Skip 1) w)) = Int 1).
Proof. repeat split. Qed.

(** C4, amended: take an animation with a non-empty frame sequence whose
    [currentFrame] is an integer, and any sequence of [tick], [skip],
    [reset], [draw] and [play].  Then [currentFrame] stays an integer.  If
    it starts non-negative and every [skip] has a non-negative count, it
    stays non-negative.  For a looping animation that starts below the
    length of the sequence it stays strictly below it.  For a non-looping
    animation [tick] and [draw] never decrease it, whereas [reset] and
    [play] set it to 0 and [skip] with a non-negative count takes it below
    the length of the sequence. *)
Theorem frame_index_invariant (ops : list op) (w : World) (z : Z) :
  sprites (anim w) <> [] ->
  currentFrame (anim w) = Int z ->
  (exists z',
      currentFrame (anim (run ops w)) = Int z'
      /\ (0 <= z -> Forall skips_ahead ops -> 0 <= z')
      /\ (loop (anim w) = true -> z < length (sprites (anim w)) ->
          z' < length (sprites (anim w)))
      /\ (loop (anim w) = false -> Forall tick_or_draw ops -> z <= z'))
  /\ currentFrame (anim (step Reset w)) = Int 0
  /\ (forall x y, currentFrame (anim (step (Play x y) w)) = Int 0)
  /\ (forall frames, 0 <= z -> 0 <= frames ->
      exists r, currentFrame (anim (step (Skip frames) w)) = Int r
                /\ 0 <= r < length (sprites (anim w))).
Proof.
  intros Hne Hc. split; [|split; [reflexivity|split; [reflexivity|]]].
  - revert w z Hne Hc. induction ops as [|o ops IH]; intros w z Hne Hc.
    + exists z. cbn. repeat split; auto; lia.
    + destruct (step_frame o w z Hne Hc) as (z1 & Hc1 & Hz1 & Hloop1 & Hmono1).
      destruct (IH (step o w) z1 (step_nonempty o w Hne) Hc1)
        as (z' & Hc' & Hz' & Hloop' & Hmono').
      destruct (step_keeps o w) as (Hlen & Hlp & _).
      rewrite Hlen, Hlp in *.
      exists z'. cbn [run]. repeat split; auto.
      * intros Hz Hops. apply Forall_cons in Hops as [Ho Hops]. auto.
      * intros Hl Htd. apply Forall_cons in Htd as [Ho' Hops'].
        specialize (Hmono1 Hl Ho'). specialize (Hmono' Hl Hops'). lia.
  - intros frames Hz Hf. rewrite step_skip. cbn [anim].
    pose proof (length_pos _ Hne) as Hlen.
    rewrite (skip_frame frames _ z) by (assumption || lia).
    eexists; split; [reflexivity|]. apply Z.mod_pos_bound. exact Hlen.
Qed.

Lemma frame_index_invariant_witness :
  let w := fresh 1000 [frame 8; frame 8; frame 8] 100 None in
  let ops := [Tick 16; Skip 4; Draw 0 0; Play 1 1; Tick 200; Tick 16; Draw 1 1] in
  exists z',
    currentFrame (anim (run ops w)) = Int z'
    /\ 0 <= z' < length (sprites (anim w)).
Proof.
  destruct (frame_index_invariant
              [Tick 16; Skip 4; Draw 0 0; Play 1 1; Tick 200; Tick 16; Draw 1 1]
              (fresh 1000 [frame 8; frame 8; frame 8] 100 None) 0)
    as ((z' & Hc & Hz & Hloop & _) & _).
  - discriminate.
  - reflexivity.
  - exists z'. split; [exact Hc|]. split.
    + apply Hz; [lia | repeat constructor; simpl; lia].
    + apply Hloop; [reflexivity | unfold length; simpl; lia].
Defined.

(** ** An empty frame sequence *)

Lemma number_cases (i : number) :
  (i = NaN \/ exists z, i = Int z /\ 0 <= z) ->
  (add i 1 = NaN \/ exists z, add i 1 = Int z /\ 0 <= z).
Proof.
  intros [-> | (z & -> & Hz)]; [now left|].
  right. exists (z + 1). split; [reflexivity | lia].
Qed.

Lemma step_empty (o : op) (w : World) :
  empty_state w -> empty_state (step o w).
Proof.
  intros (Hs & Hf & Hc).
  assert (Hs' : sprites (anim (step o w)) = []).
  { destruct (step_keeps o w) as (Hlen & _). rewrite Hs in Hlen.
    destruct (sprites (anim (step o w))); [reflexivity|].
    unfold length in Hlen. simpl in Hlen. lia. }
  destruct (step_keeps o w) as (_ & _ & Hf' & _).
  split; [exact Hs'|]. split; [congruence|].
  destruct o as [delta|frames| |x y|x y].
  - rewrite step_tick. cbn [anim].
    destruct (Z_le_gt_dec (speed (anim w)) (_elapsedTime (anim w))).
    + rewrite tick_due by assumption. cbn. unfold next_frame.
      rewrite Hs. destruct (loop (anim w)).
      * left. apply rem_zero.
      * now apply number_cases.
    + now rewrite tick_not_due by lia.
  - left. rewrite step_skip. cbn. rewrite Hs. apply rem_zero.
  - right. exists 0. split; [reflexivity | lia].
  - destruct (draw_keeps x y w) as (Hd & _). cbn. now rewrite Hd.
  - right. exists 0. split; [reflexivity | lia].
Qed.

Lemma run_empty (ops : list op) (w : World) :
  empty_state w -> empty_state (run ops w).
Proof.
  revert w. induction ops as [|o ops IH]; intros w Hw; cbn [run];
    [exact Hw | apply IH, step_empty, Hw].
Qed.

Lemma fresh_empty (now sp : Z) (lp : option bool) :
  empty_state (fresh now [] sp lp).
Proof.
  split; [reflexivity|]. split; [reflexivity|].
  right. exists 0. split; [reflexivity | lia].
Qed.

(** C5, as the specification words it, fails on the code: on an animation
    without frames [skip] and a due looping [tick] leave [NaN] in
    [currentFrame], and a due non-looping [tick] moves it from 0 to 1. *)
Lemma empty_sequence_not_noop :
  currentFrame (skip 1 (new 1000 [] 100 None)) = NaN
  /\ currentFrame (tick 16 (new 1000 [] 100 None)) = NaN
  /\ currentFrame (new 1000 [] 100 (Some false)) = Int 0
  /\ currentFrame (tick 16 (new 1000 [] 100 (Some false))) = Int 1.
Proof. repeat split. Qed.

(** C5, amended: on an animation whose frame sequence is empty, [tick]
    leaves [currentFrame] unchanged as long as the accumulator is below
    the frame duration, and a non-looping [tick] at or beyond it adds one
    to [currentFrame]; and after any sequence of [tick], [skip], [reset],
    [draw] and [play] on an animation constructed without frames, [draw]
    returns normally, paints no frame and leaves the sequence empty. *)
Theorem empty_sequence_tick_and_draw
    (a : AnimationImpl) (delta : Z)
    (now sp : Z) (lp : option bool) (ops : list op) (x y : Z) :
  sprites a = [] ->
  (_elapsedTime a < speed a ->
     currentFrame (tick delta a) = currentFrame a)
  /\ (speed a <= _elapsedTime a -> loop a = false ->
     currentFrame (tick delta a) = add (currentFrame a) 1)
  /\ threw (draw x y (run ops (fresh now [] sp lp))) = false
  /\ painted (world_of (draw x y (run ops (fresh now [] sp lp)))) = []
  /\ sprites (anim (world_of (draw x y (run ops (fresh now [] sp lp))))) = [].
Proof.
  intros Hs. split; [|split].
  - intros H. now rewrite tick_not_due.
  - intros H Hl. rewrite tick_due by assumption. cbn. unfold next_frame.
    now rewrite Hl.
  - pose proof (run_empty ops _ (fresh_empty now sp lp)) as (Hs0 & Hf0 & Hc0).
    destruct (draw_painted_empty x y _ Hs0 Hf0 Hc0) as (Ht & Hp & Hs1).
    split; [exact Ht|]. split; [|exact Hs1].
    rewrite Hp. clear -Hs0 Hf0 Hc0.
    assert (Hall : forall ops', painted (run ops' (fresh now [] sp lp)) = []).
    { intros ops'. induction ops' as [|o ops' IH] using rev_ind; [reflexivity|].
      rewrite run_app. cbn [run].
      pose proof (run_empty ops' _ (fresh_empty now sp lp)) as (Hs & Hf & Hc).
      destruct o as [d|n| |x' y'|x' y']; try exact IH.
      destruct (draw_painted_empty x' y' _ Hs Hf Hc) as (_ & Hp & _).
      cbn [step]. now rewrite Hp. }
    apply Hall.
Qed.

Lemma empty_sequence_tick_and_draw_witness :
  let a := tick 16 (new 1000 [] 100 (Some false)) in
  let b := new 1000 [] 100 (Some false) in
  currentFrame (tick 1 a) = currentFrame a
  /\ currentFrame (tick 1 b) = add (currentFrame b) 1.
Proof.
  split.
  - apply (empty_sequence_tick_and_draw
             (tick 16 (new 1000 [] 100 (Some false))) 1 0 0 None [] 0 0);
      [reflexivity | simpl; lia].
  - apply (empty_sequence_tick_and_draw
             (new 1000 [] 100 (Some false)) 1 0 0 None [] 0 0);
      [reflexivity | simpl; lia | reflexivity].
Defined.

(** ** The future of [play] *)

Lemma fulfilments_resolutions (f : nat) (w : World) :
  fulfilments f w = count_occ event_eq_dec (resolutions w) (Fulfilled f).
Proof.
  unfold fulfilments, resolutions.
  induction (log w) as [|e l IH]; [reflexivity|].
  destruct e; cbn [List.filter is_resolution count_occ];
    repeat destruct (event_eq_dec _ _); congruence.
Qed.

Lemma fulfilments_cons (f g : nat) (l : list event) :
  count_occ event_eq_dec (Fulfilled g :: ResolveCalled g :: l) (Fulfilled f)
  = ((if decide (g = f) then 1 else 0) + count_occ event_eq_dec l (Fulfilled f))%nat.
Proof.
  cbn [count_occ].
  destruct (event_eq_dec (ResolveCalled g) (Fulfilled f)); [discriminate|].
  destruct (event_eq_dec (Fulfilled g) (Fulfilled f)), (decide (g = f));
    congruence || reflexivity.
Qed.

Lemma fulfilments_called (f g : nat) (l : list event) :
  count_occ event_eq_dec (ResolveCalled g :: l) (Fulfilled f)
  = count_occ event_eq_dec l (Fulfilled f).
Proof.
  cbn [count_occ].
  now destruct (event_eq_dec (ResolveCalled g) (Fulfilled f)).
Qed.

Lemma step_not_draw (o : op) (w : World) :
  is_draw o = false ->
  resolutions (step o w) = resolutions w
  /\ (forall f, fulfilments f (step o w) = fulfilments f w)
  /\ (forall f, (f < List.length (promises w))%nat ->
                promises (step o w) !! f = promises w !! f)
  /\ (List.length (promises w) <= List.length (promises (step o w)))%nat.
Proof.
  destruct o as [delta|frames| |x y|x y]; intros Ho; try discriminate;
    repeat split; auto.
  - intros f Hf. rewrite step_play. cbn [promises]. now apply lookup_app_l.
  - rewrite step_play. cbn [promises]. rewrite length_app. lia.
Qed.

Lemma step_coherent (o : op) (w : World) :
  coherent w -> coherent (step o w).
Proof.
  intros Hw f. destruct (is_draw o) eqn:Ho.
  - destruct o as [| | |x y|]; try discriminate. cbn [step].
    rewrite fulfilments_resolutions.
    destruct (draw_resolutions x y w) as [[-> ->] | (g & Hg & [(Hp & -> & ->) | (Hp & -> & ->)])].
    + rewrite <- fulfilments_resolutions. apply Hw.
    + rewrite fulfilments_cons, <- fulfilments_resolutions.
      destruct (decide (g = f)) as [->|Hne].
      * right. destruct (Hw f) as [-> | [_ Hs]]; [|congruence].
        split; [reflexivity|].
        apply list_lookup_insert_eq. now apply lookup_lt_Some in Hp.
      * rewrite list_lookup_insert_ne by assumption. apply Hw.
    + rewrite fulfilments_called, <- fulfilments_resolutions. apply Hw.
  - destruct (step_not_draw o w Ho) as (_ & Hf & Hp & _).
    rewrite Hf. destruct (Hw f) as [H0 | [H1 Hs]]; [now left|].
    right. split; [assumption|]. rewrite Hp; [assumption|].
    now apply lookup_lt_Some in Hs.
Qed.

Lemma run_coherent (ops : list op) (w : World) :
  coherent w -> coherent (run ops w).
Proof.
  revert w. induction ops as [|o ops IH]; intros w Hw; cbn [run];
    [exact Hw | apply IH, step_coherent, Hw].
Qed.

Lemma step_armed_from (n : nat) (o : op) (w : World) (f : nat) :
  armed_from n w -> (f < n)%nat ->
  armed_from n (step o w)
  /\ promises (step o w) !! f = promises w !! f
  /\ fulfilments f (step o w) = fulfilments f w.
Proof.
  intros (k & Hk & Hn) Hf. destruct (is_draw o) eqn:Ho.
  - destruct o as [| | |x y|]; try discriminate. cbn [step].
    destruct (draw_keeps x y w) as (_ & _ & _ & _ & _ & Hw & _).
    rewrite !fulfilments_resolutions.
    destruct (draw_resolutions x y w)
      as [[-> Hp] | (g & Hg & [(_ & -> & Hp) | (_ & -> & Hp)])];
      rewrite Hp.
    + repeat split; auto. exists k. rewrite Hw, Hp. auto.
    + assert (g = k) as -> by congruence.
      rewrite fulfilments_cons, list_lookup_insert_ne by lia.
      destruct (decide (k = f)); [lia|].
      repeat split; auto. exists k. rewrite Hw, Hp, length_insert. auto.
    + rewrite fulfilments_called.
      repeat split; auto. exists k. rewrite Hw, Hp. auto.
  - destruct (step_not_draw o w Ho) as (_ & Hfu & Hp & Hlen).
    split; [|split; [apply Hp; lia | apply Hfu]].
    destruct o as [delta|frames| |x y|x y]; try discriminate.
    + exists k. rewrite step_tick. cbn [anim promises].
      destruct (tick_keeps (anim w) delta) as (_ & _ & _ & _ & ->). auto.
    + exists k. auto.
    + exists k. auto.
    + exists (List.length (promises w)). rewrite step_play. cbn.
      split; [reflexivity|]. rewrite length_app. cbn. lia.
Qed.

Lemma run_armed_from (n : nat) (ops : list op) (w : World) (f : nat) :
  armed_from n w -> (f < n)%nat ->
  promises (run ops w) !! f = promises w !! f
  /\ fulfilments f (run ops w) = fulfilments f w.
Proof.
  revert w. induction ops as [|o ops IH]; intros w Hw Hf; cbn [run]; [auto|].
  destruct (step_armed_from n o w f Hw Hf) as (Hw' & <- & <-).
  now apply IH.
Qed.

Lemma draw_calls_armed_only (x y : Z) (w : World) :
  exists new,
    resolutions (step (Draw x y) w) = new ++ resolutions w
    /\ forall e, In e new ->
         exists g, _resolveDonePlaying (anim w) = Some g
                   /\ (e = ResolveCalled g \/ e = Fulfilled g).
Proof.
  cbn [step].
  destruct (draw_resolutions x y w)
    as [[-> _] | (g & Hg & [(_ & -> & _) | (_ & -> & _)])].
  - exists []. split; [reflexivity|]. intros e [].
  - exists [Fulfilled g; ResolveCalled g]. split; [reflexivity|].
    intros e [<- | [<- | []]]; exists g; auto.
  - exists [ResolveCalled g]. split; [reflexivity|].
    intros e [<- | []]; exists g; auto.
Qed.

Lemma fresh_coherent (now : Z) (l : list Sprite.t) (sp : Z) (lp : option bool) :
  coherent (fresh now l sp lp).
Proof. intros f. now left. Qed.

(** On a non-empty sequence [draw] returns when the animation is done, and
    then it has called the armed waiter. *)
Lemma draw_done_resolves (x y : Z) (w : World) (f : nat) :
  isDone (anim w) = true ->
  sprites (anim w) <> [] ->
  _resolveDonePlaying (anim w) = Some f ->
  promises w !! f = Some Pending ->
  threw (draw x y w) = false
  /\ promises (world_of (draw x y w)) = <[f := Settled]> (promises w)
  /\ resolutions (world_of (draw x y w))
     = Fulfilled f :: ResolveCalled f :: resolutions w.
Proof.
  destruct w as [a ps lg]. destruct a. unfold isDone, resolutions.
  cbn [anim loop currentFrame sprites _resolveDonePlaying promises log].
  intros Hd Hne -> Hp. apply andb_prop in Hd as [_ Hd].
  destruct currentFrame0 as [z|]; [|discriminate]. cbn [ge] in Hd.
  apply Z.leb_le in Hd. pose proof (length_pos _ Hne) as Hpos.
  exec_cases.
  all: unfold length, clamp in *; cbn [sprites anim] in *;
    rewrite ?length_insert, ?length_map in *.
  all: repeat match goal with
              | H : (_ && _) = true |- _ => apply andb_prop in H as [? ?]
              | H : (_ <? _) = true |- _ => apply Z.ltb_lt in H
              | H : (_ <? _) = false |- _ => apply Z.ltb_ge in H
              | H : (_ <=? _) = true |- _ => apply Z.leb_le in H
              | H : _ !! _ = None |- _ => apply lookup_ge_None in H
              end;
    rewrite ?length_insert, ?length_map in *.
  all: try lia; try congruence.
  all: repeat split; reflexivity.
Qed.

(** C1, as the specification words it, fails on the code: [draw] tests the
    method [isDone] itself instead of calling it, so the future of [play]
    is fulfilled by the first [draw] although the animation is not done;
    and [draw] leaves the waiter armed, so the next [draw] calls the same
    resolve function again. *)
Lemma draw_resolves_while_not_done :
  let w1 := step (Play 0 0) (fresh 1000 [frame 8; frame 8] 100 (Some false)) in
  let w2 := step (Draw 0 0) w1 in
  let w3 := step (Draw 0 0) w2 in
  promises w1 = [Pending]
  /\ isDone (anim w1) = false
  /\ isDone (anim w2) = false
  /\ promises w2 = [Settled]
  /\ resolutions w2 = [Fulfilled 0%nat; ResolveCalled 0%nat]
  /\ _resolveDonePlaying (anim w2) = Some 0%nat
  /\ resolutions w3 = [ResolveCalled 0%nat; Fulfilled 0%nat; ResolveCalled 0%nat].
Proof. repeat split. Qed.

(** C1, amended: the future returned by [play(x, y)] becomes fulfilled at
    most once, and only during a call of [draw]: no other call resolves
    anything.  A call of [draw] calls no resolve function but that of the
    armed waiter, and it leaves the waiter armed; calling the resolve
    function of a fulfilled future again changes nothing.  [play] arms a
    new, pending future, and from then on the futures of earlier calls of
    [play] are never resolved: only the future of the latest call can
    resolve.  And [draw] does resolve: when the animation is done, its
    sequence is not empty and the armed waiter belongs to a pending future,
    the call of [draw] returns, calls the resolve function of that waiter
    and so fulfils the future. *)
Theorem play_future_resolution
    (w : World) (o : op) (x y : Z) (ops : list op) (f : nat)
    (now : Z) (l : list Sprite.t) (sp : Z) (lp : option bool) :
  (is_draw o = false -> resolutions (step o w) = resolutions w)
  /\ (exists new,
        resolutions (step (Draw x y) w) = new ++ resolutions w
        /\ forall e, In e new ->
             exists g, _resolveDonePlaying (anim w) = Some g
                       /\ (e = ResolveCalled g \/ e = Fulfilled g))
  /\ _resolveDonePlaying (anim (step (Draw x y) w)) = _resolveDonePlaying (anim w)
  /\ (fulfilments f (run ops (fresh now l sp lp)) <= 1)%nat
  /\ _resolveDonePlaying (anim (step (Play x y) w))
     = Some (List.length (promises w))
  /\ promises (step (Play x y) w) !! List.length (promises w) = Some Pending
  /\ ((f < List.length (promises w))%nat ->
      promises (run ops (step (Play x y) w)) !! f = promises w !! f
      /\ fulfilments f (run ops (step (Play x y) w)) = fulfilments f w)
  /\ (isDone (anim w) = true ->
      sprites (anim w) <> [] ->
      _resolveDonePlaying (anim w) = Some f ->
      promises w !! f = Some Pending ->
      threw (draw x y w) = false
      /\ promises (step (Draw x y) w) !! f = Some Settled
      /\ resolutions (step (Draw x y) w)
         = Fulfilled f :: ResolveCalled f :: resolutions w
      /\ fulfilments f (step (Draw x y) w) = S (fulfilments f w)).
Proof.
  split; [|split; [|split; [|split; [|split; [|split; [|split]]]]]].
  - intros Ho. now destruct (step_not_draw o w Ho) as (-> & _).
  - apply draw_calls_armed_only.
  - cbn [step]. now destruct (draw_keeps x y w) as (_ & _ & _ & _ & _ & -> & _).
  - destruct (run_coherent ops _ (fresh_coherent now l sp lp) f) as [-> | [-> _]]; lia.
  - reflexivity.
  - rewrite step_play. cbn [promises].
    rewrite lookup_app_r by lia. now rewrite Nat.sub_diag.
  - intros Hf.
    assert (Harmed : armed_from (List.length (promises w)) (step (Play x y) w)).
    { exists (List.length (promises w)). rewrite step_play. cbn.
      split; [reflexivity|]. rewrite length_app. cbn. lia. }
    destruct (run_armed_from _ ops _ f Harmed Hf) as (-> & ->).
    destruct (step_not_draw (Play x y) w eq_refl) as (_ & Hfu & Hp & _).
    split; [now apply Hp | apply Hfu].
  - intros Hd Hne Hw Hp.
    destruct (draw_done_resolves x y w f Hd Hne Hw Hp) as (Ht & Hps & Hr).
    cbn [step]. split; [exact Ht|]. split; [|split; [exact Hr|]].
    + rewrite Hps. apply list_lookup_insert_eq. now apply lookup_lt_Some in Hp.
    + rewrite !fulfilments_resolutions, Hr, fulfilments_cons.
      destruct (decide (f = f)); [reflexivity | congruence].
Qed.

Lemma play_future_resolution_witness :
  let w := step (Play 0 0) (fresh 1000 [frame 8; frame 8] 100 (Some false)) in
  let ops := [Draw 1 1; Tick 100; Tick 100; Draw 1 1; Play 2 2; Draw 2 2] in
  let finished := run [Tick 100; Tick 100] w in
  resolutions (step (Tick 16) w) = resolutions w
  /\ (promises (run ops (step (Play 1 1) w)) !! 0%nat = promises w !! 0%nat
      /\ fulfilments 0 (run ops (step (Play 1 1) w)) = fulfilments 0 w)
  /\ (threw (draw 3 3 finished) = false
      /\ promises (step (Draw 3 3) finished) !! 0%nat = Some Settled
      /\ resolutions (step (Draw 3 3) finished)
         = Fulfilled 0%nat :: ResolveCalled 0%nat :: resolutions finished
      /\ fulfilments 0 (step (Draw 3 3) finished) = S (fulfilments 0 finished)).
Proof.
  split; [|split].
  - apply (play_future_resolution
             (step (Play 0 0) (fresh 1000 [frame 8; frame 8] 100 (Some false)))
             (Tick 16) 0 0 [] 0 0 [] 0 None).
    reflexivity.
  - apply (play_future_resolution
             (step (Play 0 0) (fresh 1000 [frame 8; frame 8] 100 (Some false)))
             Reset 1 1
             [Draw 1 1; Tick 100; Tick 100; Draw 1 1; Play 2 2; Draw 2 2]
             0 0 [] 0 None).
    simpl. lia.
  - apply (play_future_resolution
             (run [Tick 100; Tick 100]
                  (step (Play 0 0) (fresh 1000 [frame 8; frame 8] 100 (Some false))))
             Reset 3 3 [] 0 0 [] 0 None).
    + reflexivity.
    + discriminate.
    + reflexivity.
    + reflexivity.
Defined.

End AnimationFacts.

Module GraphicsGroupFacts.

Import GraphicsGroup.

Section Members.

Context {Static Anim : Type}.
Variable anim_tick : Z -> Anim -> Anim.

Abbreviation Graphic := (Graphic Static Anim).
Abbreviation tick := (tick anim_tick).
Abbreviation forwarded := (forwarded anim_tick).

(** What the body of the loop in [tick] does to one member. *)
Lemma tick_member (d : Z) (pos : Vector) (g : Graphic) :
  (let member := (pos, g) in
   let maybeAnimation := snd member in
   if _isAnimationOrGroup maybeAnimation
   then (fst member, tick d maybeAnimation)
   else member)
  = (pos, forwarded d g).
Proof. destruct g; reflexivity. Qed.

Lemma tick_members (d : Z) (ms : list (Vector * Graphic)) :
  members (tick d (Group ms))
  = map (fun member => (fst member, forwarded d (snd member))) ms.
Proof.
  cbn [GraphicsGroup.tick members]. apply map_ext.
  intros [pos g]. apply tick_member.
Qed.

Lemma tick_animations (d : Z) (g : Graphic) :
  animations (tick d g) = map (anim_tick d) (animations g).
Proof.
  induction g as [s|a|ms IH] using Graphic_ind; [reflexivity..|].
  cbn [GraphicsGroup.tick animations].
  induction IH as [|[pos g] ms Hg _ IHms]; [reflexivity|].
  cbn [map concat]. rewrite map_app, <- IHms. f_equal.
  destruct g; [reflexivity | exact Hg | exact Hg].
Qed.

Lemma tick_statics (d : Z) (g : Graphic) :
  statics (tick d g) = statics g.
Proof.
  induction g as [s|a|ms IH] using Graphic_ind; [reflexivity..|].
  cbn [GraphicsGroup.tick statics].
  induction IH as [|[pos g] ms Hg _ IHms]; [reflexivity|].
  cbn [map concat]. rewrite <- IHms. f_equal.
  destruct g; [reflexivity | exact Hg | exact Hg].
Qed.

Lemma call_tick_returns (d : Z) (g : Graphic) :
  _isAnimationOrGroup g = true -> GraphicsGroup.call_tick anim_tick d g = Some (tick d g).
Proof.
  induction g as [s|a|ms IH] using Graphic_ind; intros Hg;
    [discriminate | reflexivity |].
  cbn [GraphicsGroup.call_tick GraphicsGroup.tick].
  induction IH as [|[pos g] ms Hm _ IHms]; [reflexivity|].
  cbn [map fst snd] in *.
  cbn [fmap option_fmap option_map mbind option_bind] in IHms |- *.
  destruct (_ ms) as [rest'|] eqn:Hrest; [|discriminate (IHms eq_refl)].
  specialize (IHms eq_refl). injection IHms as IHms.
  destruct (_isAnimationOrGroup g) eqn:Hk.
  - rewrite (Hm eq_refl). cbn. now rewrite IHms.
  - cbn. now rewrite IHms.
Qed.

(** C8: [tick(D)] of a group forwards [D], unchanged, to the members whose
    graphic is an animation or a group, and to no member whose graphic is a
    static image: the call on the group returns, whereas a call of [tick]
    on a static image fails, and it leaves the static members as they are;
    positions and order are kept.  Hence every animation in the group, at
    any depth, is ticked once with [D], and no static image changes. *)
Theorem tick_forwards_delta
    (D : Z) (ms : list (Vector * Graphic)) (i : nat)
    (pos : Vector) (g : Graphic) :
  ms !! i = Some (pos, g) ->
  GraphicsGroup.call_tick anim_tick D (Group ms) = Some (tick D (Group ms))
  /\ (_isAnimationOrGroup g = true ->
      GraphicsGroup.call_tick anim_tick D g = Some (forwarded D g))
  /\ (_isAnimationOrGroup g = false ->
      GraphicsGroup.call_tick anim_tick D g = None /\ forwarded D g = g)
  /\ members (tick D (Group ms)) !! i = Some (pos, forwarded D g)
  /\ (forall a, g = Animation a -> forwarded D g = Animation (anim_tick D a))
  /\ (forall ms', g = Group ms' -> forwarded D g = tick D (Group ms'))
  /\ (forall s, g = Image s -> forwarded D g = Image s)
  /\ List.length (members (tick D (Group ms))) = List.length ms
  /\ animations (tick D (Group ms)) = map (anim_tick D) (animations (Group ms))
  /\ statics (tick D (Group ms)) = statics (Group ms).
Proof.
  intros Hi. split; [now apply call_tick_returns|].
  split; [|split].
  - intros Hg. rewrite call_tick_returns by assumption. now destruct g.
  - intros Hg. destruct g; try discriminate. split; reflexivity.
  - rewrite tick_members. repeat split.
    + change (map ?f ms) with (f <$> ms).
      rewrite list_lookup_fmap, Hi. reflexivity.
    + now intros a ->.
    + now intros ms' ->.
    + now intros s ->.
    + apply length_map.
    + apply tick_animations.
    + apply tick_statics.
Qed.

End Members.

(** An animation that records the arguments of its [tick] calls. *)
Lemma tick_forwards_delta_witness :
  let record := fun (d : Z) (received : list Z) => d :: received in
  let inner := Group [(Vector_Zero, Animation [7]); (Vector_One, Image 2%nat)] in
  let ms := [(Vector_Zero, Image 1%nat); (Vector_Half, Animation []);
             (Vector_One, inner)] in
  call_tick record 16 (Group ms) = Some (tick record 16 (Group ms))
  /\ call_tick record 16 (@Animation nat (list Z) [])
     = Some (forwarded record 16 (Animation []))
  /\ call_tick record 16 (@Image nat (list Z) 1%nat) = None
  /\ members (tick record 16 (Group ms)) !! 1%nat
     = Some (Vector_Half, forwarded record 16 (Animation []))
  /\ animations (tick record 16 (Group ms)) = [[16]; [16; 7]]
  /\ statics (tick record 16 (Group ms)) = [1%nat; 2%nat].
Proof.
  pose (record := fun (d : Z) (received : list Z) => d :: received).
  pose (inner := @Group nat (list Z)
                   [(Vector_Zero, Animation [7]); (Vector_One, Image 2%nat)]).
  destruct (tick_forwards_delta record 16
              [(Vector_Zero, Image 1%nat); (Vector_Half, Animation []);
               (Vector_One, inner)]
              1%nat Vector_Half (Animation []) eq_refl)
    as (H0 & Hcall & _ & H1 & _ & _ & _ & _ & H2 & H3).
  destruct (tick_forwards_delta record 16
              [(Vector_Zero, Image 1%nat); (Vector_Half, Animation []);
               (Vector_One, inner)]
              0%nat Vector_Zero (Image 1%nat) eq_refl)
    as (_ & _ & Hstatic & _).
  split; [exact H0|]. split; [exact (Hcall eq_refl)|].
  split; [exact (proj1 (Hstatic eq_refl))|].
  split; [exact H1|]. split; [exact H2 | exact H3].
Defined.

End GraphicsGroupFacts.

Module OffscreenCullingFacts.

Import OffscreenCulling.
Local Open Scope Q_scope.

Lemma Qltb_true (x y : Q) : Qltb x y = true <-> x < y.
Proof.
  unfold Qltb. rewrite Qlt_alt. destruct (x ?= y); split; congruence.
Qed.

Lemma Qltb_false (x y : Q) : Qltb x y = false <-> y <= x.
Proof.
  split.
  - intros H. apply Qnot_lt_le. intros Hlt. apply Qltb_true in Hlt. congruence.
  - intros H. destruct (Qltb x y) eqn:E; [|reflexivity].
    apply Qltb_true in E. exfalso. exact (Qlt_not_le _ _ E H).
Qed.

Lemma exits_true (s : Screen) (engine : Engine) :
  exits s engine = true
  <-> right_edge s < 0 \/ bottom_edge s < 0
      \/ width engine < left_edge s \/ height engine < top_edge s.
Proof.
  unfold exits, right_edge, bottom_edge, left_edge, top_edge.
  rewrite !orb_true_iff, !Qltb_true. tauto.
Qed.

Lemma exits_false (s : Screen) (engine : Engine) :
  exits s engine = false
  <-> 0 <= right_edge s /\ 0 <= bottom_edge s
      /\ left_edge s <= width engine /\ top_edge s <= height engine.
Proof.
  unfold exits, right_edge, bottom_edge, left_edge, top_edge.
  rewrite !orb_false_iff, !Qltb_false. tauto.
Qed.

Lemma enters_true (s : Screen) (engine : Engine) :
  enters s engine = true
  <-> 0 < right_edge s /\ 0 < bottom_edge s
      /\ left_edge s < width engine /\ top_edge s < height engine.
Proof.
  unfold enters, right_edge, bottom_edge, left_edge, top_edge.
  rewrite !andb_true_iff, !Qltb_true. tauto.
Qed.

Lemma enters_false (s : Screen) (engine : Engine) :
  enters s engine = false
  <-> right_edge s <= 0 \/ bottom_edge s <= 0
      \/ width engine <= left_edge s \/ height engine <= top_edge s.
Proof.
  unfold enters, right_edge, bottom_edge, left_edge, top_edge.
  rewrite !andb_false_iff, !Qltb_false. tauto.
Qed.

Lemma neither_iff_touches (s : Screen) (engine : Engine) :
  exits s engine = false /\ enters s engine = false
  <-> touches_boundary s engine.
Proof.
  rewrite exits_false, enters_false. unfold touches_boundary.
  split.
  - intros ((Hr & Hb & Hl & Ht) & H). repeat (split; [assumption|]).
    destruct H as [H | [H | [H | H]]];
      [left | right; left | right; right; left | right; right; right]; lra.
  - intros (Hr & Hb & Hl & Ht & H). split; [tauto|].
    destruct H as [H | [H | [H | H]]];
      [left | right; left | right; right; left | right; right; right]; lra.
Qed.

Lemma update_on_screen (actor : Actor) (engine : Engine) (delta : Q) :
  isOffScreen actor = false ->
  update actor engine delta
  = if exits (screen actor engine) engine
    then publish_and_flag "exitviewport" ExitViewPortEvent true actor
    else actor.
Proof. intros H. unfold update. now rewrite H. Qed.

Lemma update_off_screen (actor : Actor) (engine : Engine) (delta : Q) :
  isOffScreen actor = true ->
  update actor engine delta
  = if enters (screen actor engine) engine
    then publish_and_flag "enterviewport" EnterViewPortEvent false actor
    else actor.
Proof. intros H. unfold update. now rewrite H. Qed.

(** Whatever the state, a call publishes nothing and keeps the flag, or
    publishes one event and flips the flag. *)
Lemma update_at_most_one (actor : Actor) (engine : Engine) (delta : Q) :
  update actor engine delta = actor
  \/ exists e,
      eventDispatcher (update actor engine delta) = e :: eventDispatcher actor
      /\ isOffScreen (update actor engine delta) = negb (isOffScreen actor).
Proof.
  unfold update.
  destruct (isOffScreen actor) eqn:Hf; cbn [negb].
  - destruct (enters _ _); [right; eexists; split; reflexivity | now left].
  - destruct (exits _ _); [right; eexists; split; reflexivity | now left].
Qed.

(** C3, as the specification words it, fails on the code: for an off-screen
    10 x 10 actor at screen position (-20, 100) under zoom 2 the right edge
    is exactly 0; neither the exit nor the enter condition holds, and the
    actor stays off-screen although it does not satisfy the exit
    condition. *)
Lemma enter_is_not_the_negation_of_exit :
  let actor := actor_at (-20) 100 2 true in
  let s := screen actor viewport in
  right_edge s == 0
  /\ exits s viewport = false
  /\ enters s viewport = false
  /\ update actor viewport 16 = actor
  /\ isOffScreen (update actor viewport 16) = true.
Proof. repeat split. Qed.

(** C3, amended: take an entity whose scale is not zero on either axis, so
    that the size [update] tests is the quotient it is meant to be and the
    tested edges are numbers.  Then the exit condition and the enter
    condition never hold together, and exactly one of them holds unless the
    zoomed rectangle lies against a tested boundary (no edge beyond its
    boundary, and the right edge equal to 0, the bottom edge equal to 0,
    the left edge equal to the viewport width or the top edge equal to the
    viewport height).  There neither holds.  So an off-screen entity that
    does not satisfy the exit condition goes back on-screen, with one
    enter-viewport event, unless it lies against such a boundary; then it
    stays off-screen and nothing is published. *)
Theorem enter_and_exit_conditions (actor : Actor) (engine : Engine) (delta : Q) :
  ~ px (scale actor) == 0 ->
  ~ py (scale actor) == 0 ->
  (s_width (screen actor engine) * px (scale actor)
   == px (getGlobalScale actor) * getWidth actor
   /\ s_height (screen actor engine) * py (scale actor)
      == py (getGlobalScale actor) * getHeight actor)
  /\ ~ (exits (screen actor engine) engine = true
        /\ enters (screen actor engine) engine = true)
  /\ (exits (screen actor engine) engine = false
      /\ enters (screen actor engine) engine = false
      <-> touches_boundary (screen actor engine) engine)
  /\ (~ touches_boundary (screen actor engine) engine ->
      enters (screen actor engine) engine
      = negb (exits (screen actor engine) engine))
  /\ (isOffScreen actor = true ->
      exits (screen actor engine) engine = false ->
      ~ touches_boundary (screen actor engine) engine ->
      update actor engine delta
      = publish_and_flag "enterviewport" EnterViewPortEvent false actor)
  /\ (isOffScreen actor = true ->
      touches_boundary (screen actor engine) engine ->
      update actor engine delta = actor).
Proof.
  intros Hsx Hsy. split.
  { unfold screen. cbn [s_width s_height]. split; field; assumption. }
  set (s := screen actor engine).
  assert (Hexcl : ~ (exits s engine = true /\ enters s engine = true)).
  { rewrite exits_true, enters_true. intros [H (Hr & Hb & Hl & Ht)].
    destruct H as [H | [H | [H | H]]]; lra. }
  assert (Hneg : ~ touches_boundary s engine ->
                 enters s engine = negb (exits s engine)).
  { intros Hn. destruct (exits s engine) eqn:Hx, (enters s engine) eqn:He;
      cbn [negb]; try reflexivity.
    - exfalso. apply Hexcl. now split.
    - exfalso. apply Hn, neither_iff_touches. now split. }
  split; [exact Hexcl|]. split; [apply neither_iff_touches|].
  split; [exact Hneg|]. split.
  - intros Hoff Hx Hn. rewrite update_off_screen by assumption.
    fold s. rewrite (Hneg Hn), Hx. reflexivity.
  - intros Hoff Ht. rewrite update_off_screen by assumption.
    apply neither_iff_touches in Ht as [_ He]. fold s. now rewrite He.
Qed.

Lemma enter_and_exit_conditions_witness :
  let inside := actor_at 100 100 2 true in
  let touching := actor_at (-20) 100 2 true in
  (~ px (scale inside) == 0 /\ ~ py (scale inside) == 0)
  /\ update inside viewport 16
     = publish_and_flag "enterviewport" EnterViewPortEvent false inside
  /\ update touching viewport 16 = touching.
Proof.
  assert (Hx : ~ 1 == 0) by discriminate.
  split; [split; exact Hx|]. split.
  - apply (enter_and_exit_conditions (actor_at 100 100 2 true) viewport 16 Hx Hx).
    + reflexivity.
    + reflexivity.
    + intros (_ & _ & _ & _ & H). vm_compute in H.
      destruct H as [H | [H | [H | H]]]; discriminate.
  - apply (enter_and_exit_conditions (actor_at (-20) 100 2 true) viewport 16 Hx Hx).
    + reflexivity.
    + vm_compute. repeat split; try discriminate. now left.
Defined.

(** C7: for an entity that is on-screen, if the right edge of its zoomed
    rectangle is below 0, or the bottom edge is below 0, or the left edge is
    beyond the viewport width, or the top edge is beyond the viewport
    height, the call publishes exactly one exit-viewport event and sets the
    off-screen flag; otherwise it publishes nothing and changes nothing.
    In any state a call makes at most one transition and publishes at most
    one event. *)
Theorem on_screen_exit (actor : Actor) (engine : Engine) (delta : Q) :
  isOffScreen actor = false ->
  (right_edge (screen actor engine) < 0
   \/ bottom_edge (screen actor engine) < 0
   \/ width engine < left_edge (screen actor engine)
   \/ height engine < top_edge (screen actor engine) ->
   published actor (update actor engine delta)
   = [("exitviewport"%string, ExitViewPortEvent)]
   /\ eventDispatcher (update actor engine delta)
      = ("exitviewport"%string, ExitViewPortEvent) :: eventDispatcher actor
   /\ isOffScreen (update actor engine delta) = true)
  /\ (~ (right_edge (screen actor engine) < 0
         \/ bottom_edge (screen actor engine) < 0
         \/ width engine < left_edge (screen actor engine)
         \/ height engine < top_edge (screen actor engine)) ->
      published actor (update actor engine delta) = []
      /\ update actor engine delta = actor)
  /\ (forall other : Actor,
        update other engine delta = other
        \/ exists e,
            eventDispatcher (update other engine delta)
            = e :: eventDispatcher other
            /\ isOffScreen (update other engine delta)
               = negb (isOffScreen other)).
Proof.
  intros Hon. rewrite update_on_screen by assumption.
  split; [|split].
  - intros Hx. apply exits_true in Hx. rewrite Hx.
    unfold published, publish_and_flag. cbn [eventDispatcher isOffScreen List.length].
    replace (S (List.length (eventDispatcher actor))
             - List.length (eventDispatcher actor))%nat with 1%nat by lia.
    repeat split.
  - intros Hx. rewrite <- exits_true in Hx.
    destruct (exits (screen actor engine) engine); [now elim Hx|].
    unfold published. rewrite Nat.sub_diag. split; reflexivity.
  - intros other. apply update_at_most_one.
Qed.

Lemma on_screen_exit_witness :
  let leaving := actor_at (-25) 100 2 false in
  let staying := actor_at 100 100 2 false in
  (published leaving (update leaving viewport 16)
   = [("exitviewport"%string, ExitViewPortEvent)]
   /\ eventDispatcher (update leaving viewport 16)
      = ("exitviewport"%string, ExitViewPortEvent) :: eventDispatcher leaving
   /\ isOffScreen (update leaving viewport 16) = true)
  /\ (published staying (update staying viewport 16) = []
      /\ update staying viewport 16 = staying).
Proof.
  split.
  - apply (on_screen_exit (actor_at (-25) 100 2 false) viewport 16 eq_refl).
    left. vm_compute. reflexivity.
  - apply (on_screen_exit (actor_at 100 100 2 false) viewport 16 eq_refl).
    vm_compute. intros [H | [H | [H | H]]]; discriminate.
Defined.

End OffscreenCullingFacts.

(** * Further properties of the animation *)

Module PlaybackFacts.

Import JS Animation JSFacts AnimationFacts Playback.

Lemma ticks_app (ds ds' : list Z) (a : AnimationImpl) :
  ticks (ds ++ ds') a = ticks ds' (ticks ds a).
Proof.
  revert a. induction ds as [|d ds IH]; intros a; cbn [ticks app];
    [reflexivity | apply IH].
Qed.

Lemma ticks_keeps (ds : list Z) (a : AnimationImpl) :
  sprites (ticks ds a) = sprites a /\ loop (ticks ds a) = loop a
  /\ speed (ticks ds a) = speed a /\ freezeFrame (ticks ds a) = freezeFrame a.
Proof.
  revert a. induction ds as [|d ds IH]; intros a; cbn [ticks]; [repeat split|].
  destruct (IH (tick d a)) as (-> & -> & -> & ->).
  destruct (tick_keeps a d) as (-> & -> & -> & -> & _). repeat split.
Qed.

Lemma run_keeps (ops : list op) (w : World) :
  length (sprites (anim (run ops w))) = length (sprites (anim w))
  /\ loop (anim (run ops w)) = loop (anim w)
  /\ freezeFrame (anim (run ops w)) = freezeFrame (anim w)
  /\ speed (anim (run ops w)) = speed (anim w).
Proof.
  revert w. induction ops as [|o ops IH]; intros w; cbn [run].
  - repeat split.
  - destruct (IH (step o w)) as (-> & -> & -> & ->). apply step_keeps.
Qed.

(** ** When an animation is done *)

Lemma isDone_tick (delta : Z) (a : AnimationImpl) :
  isDone a = true -> isDone (tick delta a) = true.
Proof.
  unfold isDone. intros H. apply andb_prop in H as [Hl Hc].
  destruct (tick_keeps a delta) as (-> & -> & _). rewrite Hl. cbn [andb].
  destruct (Z_le_gt_dec (speed a) (_elapsedTime a)).
  - rewrite tick_due by assumption. cbn [currentFrame set_currentFrame set_elapsedTime].
    unfold next_frame. destruct (loop a); [discriminate|].
    destruct (currentFrame a) as [z|]; [|discriminate].
    cbn in Hc |- *. apply Z.leb_le in Hc. apply Z.leb_le. lia.
  - now rewrite tick_not_due by lia.
Qed.

Lemma isDone_draw (x y : Z) (w : World) :
  isDone (anim (world_of (draw x y w))) = isDone (anim w).
Proof.
  unfold isDone.
  destruct (draw_keeps x y w) as (-> & -> & _ & _ & _ & _ & ->). reflexivity.
Qed.

(** X1: a non-looping animation that is done stays done under [tick] and
    [draw], in any number and order. *)
Theorem done_stays_done (ops : list op) (w : World) :
  isDone (anim w) = true ->
  Forall tick_or_draw ops ->
  isDone (anim (run ops w)) = true.
Proof.
  intros Hd Hops. revert w Hd.
  induction Hops as [|o ops Ho _ IH]; intros w Hd; cbn [run]; [exact Hd|].
  apply IH. destruct o as [delta| | |x y|]; try contradiction.
  - rewrite step_tick. cbn [anim]. now apply isDone_tick.
  - cbn [step]. now rewrite isDone_draw.
Qed.

Lemma done_stays_done_witness :
  let w := run [Tick 100; Tick 100]
               (fresh 1000 [frame 8; frame 8] 100 (Some false)) in
  isDone (anim (run [Draw 0 0; Tick 1; Tick 500; Draw 1 1; Tick 500] w)) = true.
Proof.
  apply (done_stays_done
           [Draw 0 0; Tick 1; Tick 500; Draw 1 1; Tick 500]
           (run [Tick 100; Tick 100]
                (fresh 1000 [frame 8; frame 8] 100 (Some false)))).
  - reflexivity.
  - repeat constructor.
Defined.

(** X2: a looping animation is never done, whatever is called on it. *)
Theorem looping_never_done (ops : list op) (w : World) :
  loop (anim w) = true ->
  isDone (anim (run ops w)) = false.
Proof.
  intros Hl. unfold isDone.
  destruct (run_keeps ops w) as (_ & -> & _). now rewrite Hl.
Qed.

Lemma looping_never_done_witness :
  isDone (anim (run [Tick 100; Tick 100; Skip 7; Draw 0 0; Tick 100]
                    (fresh 1000 [frame 8; frame 8] 100 None))) = false.
Proof.
  apply (looping_never_done
           [Tick 100; Tick 100; Skip 7; Draw 0 0; Tick 100]
           (fresh 1000 [frame 8; frame 8] 100 None)).
  reflexivity.
Defined.

(** X3: on a non-empty sequence [reset] and [skip], with any count, leave
    an animation that is not done, also when it was done before; on an
    empty sequence a non-looping animation is done again right after
    [reset]. *)
Theorem reset_and_skip_undo_done (a : AnimationImpl) (frames : Z) :
  (sprites a <> [] ->
     isDone (reset a) = false /\ isDone (skip frames a) = false)
  /\ (sprites a = [] -> isDone (reset a) = negb (loop a)).
Proof.
  unfold isDone. split.
  - intros Hne. pose proof (length_pos _ Hne) as Hlen. split.
    + cbn. destruct (Z.leb_spec (length (sprites a)) 0); [lia|].
      apply andb_false_r.
    + unfold skip. cbn [loop sprites currentFrame set_currentFrame].
      destruct (currentFrame a) as [z|]; cbn [add].
      * destruct (rem_bound (z + frames) _ Hlen) as (r & -> & Hr & _).
        cbn. destruct (Z.leb_spec (length (sprites a)) r); [lia|].
        apply andb_false_r.
      * cbn. apply andb_false_r.
  - intros He. cbn. rewrite He. cbn. apply andb_true_r.
Qed.

Lemma reset_and_skip_undo_done_witness :
  let a := tick 100 (tick 100 (new 1000 [frame 8; frame 8] 100 (Some false))) in
  isDone a = true
  /\ isDone (reset a) = false
  /\ isDone (skip 1 a) = false.
Proof.
  split; [reflexivity|].
  apply (reset_and_skip_undo_done
           (tick 100 (tick 100 (new 1000 [frame 8; frame 8] 100 (Some false)))) 1).
  discriminate.
Defined.

(** ** Series of [tick] calls *)

Lemma due_ticks (ds : list Z) (sp : Z) (a : AnimationImpl) (z : Z) :
  currentFrame a = Int z ->
  speed a = sp ->
  sp <= _elapsedTime a ->
  Forall (fun d => sp <= d) ds ->
  (loop a = false -> currentFrame (ticks ds a) = Int (z + length ds))
  /\ (loop a = true -> sprites a <> [] -> 0 <= z < length (sprites a) ->
      currentFrame (ticks ds a) = Int ((z + length ds) mod length (sprites a))).
Proof.
  intros Hc Hsp He Hds. revert a z Hc Hsp He.
  induction Hds as [|d ds Hd Hds IH]; intros a z Hc Hsp He.
  - cbn [ticks]. unfold length at 1 3. cbn. rewrite Z.add_0_r. split; [auto|].
    intros _ _ Hz. now rewrite Z.mod_small.
  - cbn [ticks]. subst sp.
    destruct (tick_keeps a d) as (Hs & Hl & Hsp & _).
    assert (He' : speed a <= _elapsedTime (tick d a)).
    { rewrite tick_due by assumption. cbn. lia. }
    assert (Hlen : length (d :: ds) = 1 + length ds)
      by (unfold length; cbn [List.length]; lia).
    rewrite Hlen. split.
    + intros Hloop.
      assert (Hc' : currentFrame (tick d a) = Int (z + 1)).
      { rewrite tick_due by assumption. cbn. unfold next_frame.
        now rewrite Hloop, Hc. }
      destruct (IH (tick d a) (z + 1) Hc' Hsp He') as [IHn _].
      rewrite IHn by congruence. f_equal. lia.
    + intros Hloop Hne Hz. pose proof (length_pos _ Hne) as Hpos.
      assert (Hc' : currentFrame (tick d a)
                    = Int ((z + 1) mod length (sprites a))).
      { rewrite tick_due by assumption. cbn.
        rewrite (next_frame_int a z) by (assumption || lia).
        now rewrite Hloop. }
      destruct (IH (tick d a) _ Hc' Hsp He') as [_ IHl].
      rewrite Hs in IHl. rewrite IHl.
      * f_equal. rewrite Zplus_mod_idemp_l. f_equal. lia.
      * congruence.
      * exact Hne.
      * apply Z.mod_pos_bound. exact Hpos.
Qed.

(** X4: once the accumulator has reached the frame duration, calls of
    [tick] whose arguments are each at least the frame duration advance one
    frame per call: after [k] such calls a non-looping animation is [k]
    frames further, and a looping one [k] frames further modulo the length
    of its sequence. *)
Theorem due_ticks_advance_one_frame_each
    (ds : list Z) (a : AnimationImpl) (z : Z) :
  currentFrame a = Int z ->
  speed a <= _elapsedTime a ->
  Forall (fun d => speed a <= d) ds ->
  (loop a = false -> currentFrame (ticks ds a) = Int (z + length ds))
  /\ (loop a = true -> sprites a <> [] -> 0 <= z < length (sprites a) ->
      currentFrame (ticks ds a) = Int ((z + length ds) mod length (sprites a))).
Proof. intros Hc He Hds. now apply (due_ticks ds (speed a)). Qed.

Lemma due_ticks_advance_one_frame_each_witness :
  currentFrame (ticks [100; 250; 100; 100; 1000]
                      (new 1700000000000 [frame 8; frame 8; frame 8] 100 None))
  = Int ((0 + 5) mod 3).
Proof.
  apply (due_ticks_advance_one_frame_each
           [100; 250; 100; 100; 1000]
           (new 1700000000000 [frame 8; frame 8; frame 8] 100 None) 0).
  - reflexivity.
  - simpl. lia.
  - repeat constructor; simpl; lia.
  - reflexivity.
  - discriminate.
  - unfold length. simpl. lia.
Defined.

Lemma total_nonneg (ds : list Z) :
  Forall (fun d => 0 <= d) ds -> 0 <= total ds.
Proof. intros H. induction H; cbn; [lia|]. unfold total in *. lia. Qed.

Lemma total_app (ds ds' : list Z) : total (ds ++ ds') = total ds + total ds'.
Proof.
  unfold total. induction ds as [|d ds IH]; cbn; [reflexivity|]. rewrite IH. lia.
Qed.

Lemma short_ticks (ds : list Z) (a : AnimationImpl) :
  Forall (fun d => 0 <= d) ds ->
  _elapsedTime a + total ds < speed a ->
  currentFrame (ticks ds a) = currentFrame a
  /\ _elapsedTime (ticks ds a) = _elapsedTime a + total ds.
Proof.
  intros Hds. revert a. induction Hds as [|d ds Hd Hds IH]; intros a Hlt.
  - cbn. split; [reflexivity | lia].
  - pose proof (total_nonneg ds Hds) as Hnn.
    cbn [ticks total fold_right] in Hlt |- *. fold (total ds) in Hlt |- *.
    assert (Hnow : _elapsedTime a < speed a) by lia.
    destruct (tick_keeps a d) as (_ & _ & Hsp & _).
    destruct (IH (tick d a)) as (Hc & He).
    + rewrite Hsp, tick_not_due by assumption. cbn. lia.
    + rewrite Hc, He, tick_not_due by assumption. cbn.
      split; [reflexivity | lia].
Qed.

(** X5: while the accumulator, with the arguments of all earlier calls
    added, is below the frame duration, calls of [tick] with non-negative
    arguments keep the frame and add their arguments up.  The call that
    takes the accumulator to the frame duration or beyond still keeps the
    frame; it is the call after it that advances, by one frame. *)
Theorem short_ticks_hold_the_frame
    (ds : list Z) (d d' : Z) (a : AnimationImpl) :
  Forall (fun d => 0 <= d) ds ->
  _elapsedTime a + total ds < speed a ->
  currentFrame (ticks (ds ++ [d]) a) = currentFrame a
  /\ _elapsedTime (ticks (ds ++ [d]) a) = _elapsedTime a + total ds + d
  /\ (speed a <= _elapsedTime a + total ds + d ->
      currentFrame (tick d' (ticks (ds ++ [d]) a)) = next_frame a
      /\ _elapsedTime (tick d' (ticks (ds ++ [d]) a)) = d').
Proof.
  intros Hds Hlt. destruct (short_ticks ds a Hds Hlt) as (Hc & He).
  destruct (ticks_keeps ds a) as (Hs & Hl & Hsp & _).
  assert (Hlast : ticks (ds ++ [d]) a = tick d (ticks ds a))
    by (rewrite ticks_app; reflexivity).
  assert (Hnot : _elapsedTime (ticks ds a) < speed (ticks ds a)) by lia.
  rewrite Hlast, (tick_not_due _ d Hnot).
  cbn [currentFrame _elapsedTime set_elapsedTime].
  split; [exact Hc|]. split; [lia|].
  intros Hdue. rewrite tick_due by (cbn; lia). cbn.
  split; [|reflexivity]. unfold next_frame. cbn. now rewrite Hl, Hc, Hs.
Qed.

Lemma short_ticks_hold_the_frame_witness :
  let a := tick 0 (new 1700000000000 [frame 8; frame 8; frame 8] 100 None) in
  currentFrame (ticks ([16; 16; 16; 16; 16; 16] ++ [16]) a) = Int 1
  /\ _elapsedTime (ticks ([16; 16; 16; 16; 16; 16] ++ [16]) a) = 0 + 96 + 16
  /\ currentFrame (tick 16 (ticks ([16; 16; 16; 16; 16; 16] ++ [16]) a)) = Int 2.
Proof.
  destruct (short_ticks_hold_the_frame
              [16; 16; 16; 16; 16; 16] 16 16
              (tick 0 (new 1700000000000 [frame 8; frame 8; frame 8] 100 None)))
    as (H1 & H2 & H3).
  - repeat constructor; lia.
  - simpl. lia.
  - split; [exact H1|]. split; [exact H2|]. apply H3. simpl. lia.
Defined.

(** X6: a new non-looping animation whose construction time is at least
    the frame duration, ticked with arguments of at least the frame
    duration, is done exactly from the call on whose number is the length
    of its sequence. *)
Theorem non_looping_is_done_after_length_ticks
    (now sp : Z) (l : list Sprite.t) (ds : list Z) :
  sp <= now ->
  Forall (fun d => sp <= d) ds ->
  currentFrame (ticks ds (new now l sp (Some false))) = Int (length ds)
  /\ isDone (ticks ds (new now l sp (Some false))) = (length l <=? length ds).
Proof.
  intros Hnow Hds.
  destruct (due_ticks ds sp (new now l sp (Some false)) 0) as [Hn _];
    [reflexivity | reflexivity | exact Hnow | exact Hds |].
  specialize (Hn eq_refl). cbn [Z.add] in Hn.
  split; [exact Hn|]. unfold isDone. rewrite Hn.
  destruct (ticks_keeps ds (new now l sp (Some false))) as (-> & -> & _).
  reflexivity.
Qed.

Lemma non_looping_is_done_after_length_ticks_witness :
  isDone (ticks [100; 100] (new 1000 [frame 8; frame 8; frame 8] 100 (Some false)))
  = false
  /\ isDone (ticks [100; 100; 100]
                   (new 1000 [frame 8; frame 8; frame 8] 100 (Some false)))
     = true.
Proof.
  split.
  - apply (non_looping_is_done_after_length_ticks
             1000 100 [frame 8; frame 8; frame 8] [100; 100]);
      [lia | repeat constructor; lia].
  - apply (non_looping_is_done_after_length_ticks
             1000 100 [frame 8; frame 8; frame 8] [100; 100; 100]);
      [lia | repeat constructor; lia].
Defined.

(** ** [skip] *)

(** X7: on a non-empty sequence and a non-negative frame, skipping ahead
    twice is skipping ahead once by the sum, and skipping ahead by whole
    laps of the sequence leaves a frame that is an index where it is. *)
Theorem skip_adds_up (a : AnimationImpl) (m n k z : Z) :
  sprites a <> [] ->
  currentFrame a = Int z ->
  0 <= z -> 0 <= m -> 0 <= n -> 0 <= k ->
  currentFrame (skip n (skip m a)) = currentFrame (skip (m + n) a)
  /\ (z < length (sprites a) ->
      currentFrame (skip (k * length (sprites a)) a) = Int z).
Proof.
  intros Hne Hc Hz Hm Hn Hk. pose proof (length_pos _ Hne) as Hpos.
  split.
  - rewrite (skip_frame n (skip m a) ((z + m) mod length (sprites a))).
    + rewrite (skip_frame (m + n) a z) by (assumption || lia).
      cbn [sprites skip set_currentFrame].
      rewrite Zplus_mod_idemp_l. f_equal. f_equal. lia.
    + now apply skip_frame; [|lia|].
    + pose proof (Z.mod_pos_bound (z + m) _ Hpos). lia.
    + exact Hne.
  - intros Hlt. rewrite (skip_frame _ a z) by (assumption || nia).
    now rewrite Z.mod_add, Z.mod_small by lia.
Qed.

Lemma skip_adds_up_witness :
  let a := skip 1 (new 1000 [frame 8; frame 8; frame 8] 100 None) in
  currentFrame (skip 5 (skip 2 a)) = currentFrame (skip (2 + 5) a)
  /\ currentFrame (skip (4 * length (sprites a)) a) = Int 1.
Proof.
  destruct (skip_adds_up (skip 1 (new 1000 [frame 8; frame 8; frame 8] 100 None))
                         2 5 4 1) as (H1 & H2);
    [discriminate | reflexivity | lia | lia | lia | lia |].
  split; [exact H1|]. apply H2. unfold length. simpl. lia.
Defined.

(** ** What [draw] paints *)

Ltac bool_hyps :=
  repeat match goal with
         | H : (_ && _) = true |- _ => apply andb_prop in H as [? ?]
         | H : (_ && _) = false |- _ => apply andb_false_iff in H as [?|?]
         | H : (_ || _) = false |- _ => apply orb_false_iff in H as [? ?]
         | H : (_ || _) = true |- _ => apply orb_true_iff in H as [?|?]
         | H : negb _ = true |- _ => apply negb_true_iff in H
         | H : negb _ = false |- _ => apply negb_false_iff in H
         | H : (_ <? _) = true |- _ => apply Z.ltb_lt in H
         | H : (_ <? _) = false |- _ => apply Z.ltb_ge in H
         | H : (_ <=? _) = true |- _ => apply Z.leb_le in H
         | H : (_ <=? _) = false |- _ => apply Z.leb_gt in H
         | H : (_ =? _) = true |- _ => apply Z.eqb_eq in H
         | H : (_ =? _) = false |- _ => apply Z.eqb_neq in H
         | H : _ !! _ = None |- _ => apply lookup_ge_None in H
         | H : _ !! _ = Some _ |- _ => apply lookup_lt_Some in H
         end.

Lemma draw_outcome (x y : Z) (w : World) :
  threw (draw x y w) = draw_fails (anim w)
  /\ painted (world_of (draw x y w))
     = paints (frame_to_paint (anim w)) x y ++ painted w.
Proof.
  destruct w as [a ps lg]. destruct a.
  unfold painted, draw_fails, frame_to_paint, paints.
  cbn [anim currentFrame sprites freezeFrame log].
  destruct currentFrame0 as [z|].
  - exec_cases.
    all: unfold length, clamp in *; cbn [sprites anim] in *;
      rewrite ?length_insert, ?length_map in *.
    all: repeat match goal with
                | |- context [if ?c then _ else _] => destruct c eqn:?
                end.
    all: bool_hyps; rewrite ?length_insert, ?length_map in *;
      cbn [position]; try lia; try (split; reflexivity).
    all: repeat match goal with
                | |- context [Z.eqb ?a ?b] => destruct (Z.eqb_spec a b)
                | |- context [Z.ltb ?a ?b] => destruct (Z.ltb_spec a b)
                | |- context [Z.leb ?a ?b] => destruct (Z.leb_spec a b)
                end;
      cbn [andb orb negb]; try lia; try (split; reflexivity).
  - exec_cases; bool_hyps; try discriminate; split; reflexivity.
Qed.


(** X8: a call of [draw] hands at most one sprite to the canvas: the
    current frame while [currentFrame] is an index of the sequence; the
    freeze frame, clamped into the sequence, once [currentFrame] is at or
    beyond the length of a non-empty sequence and [freezeFrame] is not -1;
    and nothing otherwise. *)
Theorem draw_paints_one_frame (x y : Z) (w : World) :
  painted (world_of (draw x y w))
  = paints (frame_to_paint (anim w)) x y ++ painted w
  /\ (forall z, currentFrame (anim w) = Int z ->
        0 <= z < length (sprites (anim w)) ->
        frame_to_paint (anim w) = Some (Z.to_nat z))
  /\ (forall z, currentFrame (anim w) = Int z ->
        0 < length (sprites (anim w)) <= z ->
        freezeFrame (anim w) <> -1 ->
        frame_to_paint (anim w)
        = Some (Z.to_nat (clamp (freezeFrame (anim w)) 0
                                (length (sprites (anim w)) - 1)))
        /\ 0 <= clamp (freezeFrame (anim w)) 0 (length (sprites (anim w)) - 1)
           < length (sprites (anim w)))
  /\ (List.length (painted (world_of (draw x y w)))
      <= 1 + List.length (painted w))%nat.
Proof.
  destruct (draw_outcome x y w) as [_ Hp]. split; [exact Hp|].
  split; [|split].
  - intros z Hc Hz. unfold frame_to_paint. rewrite Hc.
    destruct (Z.leb_spec 0 z), (Z.ltb_spec z (length (sprites (anim w))));
      try lia. reflexivity.
  - intros z Hc Hz Hf. unfold frame_to_paint. rewrite Hc.
    destruct (Z.leb_spec 0 z), (Z.ltb_spec z (length (sprites (anim w))));
      try lia; cbn [andb].
    destruct (Z.leb_spec (length (sprites (anim w))) z); try lia.
    destruct (Z.eqb_spec (freezeFrame (anim w)) (-1)); try congruence.
    destruct (Z.ltb_spec 0 (length (sprites (anim w)))); try lia.
    split; [reflexivity | unfold clamp; lia].
  - rewrite Hp, length_app. destruct (frame_to_paint (anim w)); cbn; lia.
Qed.

Lemma draw_paints_one_frame_witness :
  let w := fresh 1000 [frame 3; frame 5] 100 (Some false) in
  let done := run [Tick 100; Tick 100; Tick 100] w in
  painted (world_of (draw 7 9 w)) = [SpriteDraw 0 7 9]
  /\ painted (world_of (draw 7 9 done)) = [SpriteDraw 1 7 9].
Proof.
  split.
  - destruct (draw_paints_one_frame 7 9 (fresh 1000 [frame 3; frame 5] 100 (Some false)))
      as (Hp & Hcur & _).
    rewrite Hp, (Hcur 0); [reflexivity | reflexivity | unfold length; simpl; lia].
  - destruct (draw_paints_one_frame 7 9
                (run [Tick 100; Tick 100; Tick 100]
                     (fresh 1000 [frame 3; frame 5] 100 (Some false))))
      as (Hp & _ & Hfr & _).
    rewrite Hp.
    destruct (Hfr 3) as [-> _];
      [reflexivity | unfold length; simpl; lia | discriminate | reflexivity].
Defined.

(** X9: [draw] fails on an undefined sprite exactly when [currentFrame] is
    a negative integer, or when the sequence is empty, [freezeFrame] is not
    -1 and [currentFrame] is an integer; in every other state, [NaN]
    included, it returns normally. *)
Theorem draw_fails_exactly (x y : Z) (w : World) :
  threw (draw x y w) = true
  <-> exists z, currentFrame (anim w) = Int z
                /\ (z < 0 \/ (sprites (anim w) = [] /\ freezeFrame (anim w) <> -1)).
Proof.
  destruct (draw_outcome x y w) as [-> _]. unfold draw_fails.
  destruct (currentFrame (anim w)) as [z|].
  - rewrite orb_true_iff, andb_true_iff, negb_true_iff,
      Z.ltb_lt, Z.eqb_eq, Z.eqb_neq.
    split.
    + intros [Hz | [Hl Hf]]; exists z; (split; [reflexivity|]); [now left|].
      right. split; [|exact Hf].
      destruct (sprites (anim w)); [reflexivity | unfold length in Hl; simpl in Hl; lia].
    + intros (z' & Hc & H). injection Hc as <-.
      destruct H as [Hz | [He Hf]]; [now left|]. right. now rewrite He.
  - split; [discriminate | intros (z & Hc & _); discriminate].
Qed.

(** ** What [draw] does to the instance *)

Lemma draw_sprite_lookup (x y : Z) (w : World) (j : nat) :
  sprites (anim (world_of (draw x y w))) !! j
  = (fun s =>
       let s' := Sprite.set_transform (anchor (anim w)) (rotation (anim w))
                                      (scale (anim w)) s in
       if decide (currentFrame (anim w) = Int (Z.of_nat j))
       then Sprite.set_flip (flipVertical (anim w)) (flipHorizontal (anim w)) s'
       else s')
    <$> sprites (anim w) !! j.
Proof.
  destruct w as [a ps lg]. destruct a. cbn [anim currentFrame sprites anchor
    rotation scale flipVertical flipHorizontal].
  destruct currentFrame0 as [z|];
    destruct (decide _) as [Heq|Hneq]; try discriminate;
    try (injection Heq as Heq).
  all: exec_cases.
  all: unfold length in *; cbn [sprites anim position] in *.
  all: repeat match goal with
              | H : context [map ?f ?l] |- _ => change (map f l) with (f <$> l) in H
              | |- context [map ?f ?l] => change (map f l) with (f <$> l)
              end.
  all: repeat match goal with
              | H : (_ <? _) = true |- _ => apply Z.ltb_lt in H
              | H : (_ <? _) = false |- _ => apply Z.ltb_ge in H
              | H : (_ <=? _) = true |- _ => apply Z.leb_le in H
              | H : (_ <=? _) = false |- _ => apply Z.leb_gt in H
              end.
  all: try match goal with
           | |- (<[Z.to_nat ?z := _]> _) !! _ = _ =>
               destruct (decide (Z.to_nat z = j)) as [<-|Hne];
               [ rewrite list_lookup_insert_eq
                   by (eapply lookup_lt_Some; eassumption)
               | rewrite list_lookup_insert_ne by assumption ]
           end.
  all: rewrite ?list_lookup_fmap in *.
  all: try subst z; rewrite ?Nat2Z.id in *.
  all: try match goal with
           | H : _ <$> (_ !! _) = Some _ |- _ =>
               apply fmap_Some in H as (? & ? & ?); subst
           | H : _ <$> (_ !! _) = None |- _ => apply fmap_None in H
           end.
  all: repeat match goal with
              | H : ?l !! ?i = _ |- context [?l !! ?i] => rewrite H
              end; cbn [fmap option_fmap option_map].
  all: try reflexivity; try lia.
  all: try (exfalso; apply Hneq; f_equal; lia).
  all: try (destruct (sprites0 !! j) eqn:Hs;
            [apply lookup_lt_Some in Hs; rewrite ?length_fmap in *; lia
            | reflexivity]).
Qed.

Lemma transformed_size (l : list Sprite.t) (an : Vector) (r : Q) (sc : Vector)
    (fv fh : bool) (i k : nat) (t s' : Sprite.t) :
  (Sprite.set_transform an r sc <$> l) !! i = Some t ->
  (<[i := Sprite.set_flip fv fh t]> (Sprite.set_transform an r sc <$> l)) !! k
  = Some s' ->
  exists s, l !! k = Some s
            /\ Sprite.drawWidth s' = Sprite.drawWidth s
            /\ Sprite.drawHeight s' = Sprite.drawHeight s.
Proof.
  intros Ht Hk. destruct (decide (i = k)) as [<-|Hne].
  - rewrite list_lookup_insert_eq in Hk by (eapply lookup_lt_Some; eassumption).
    injection Hk as <-. rewrite list_lookup_fmap in Ht.
    apply fmap_Some in Ht as (s & Hs & ->). exists s. repeat split. exact Hs.
  - rewrite list_lookup_insert_ne, list_lookup_fmap in Hk by assumption.
    apply fmap_Some in Hk as (s & Hs & ->). exists s. repeat split. exact Hs.
Qed.

Lemma draw_size (x y : Z) (w : World) :
  (drawWidth (anim (world_of (draw x y w))),
   drawHeight (anim (world_of (draw x y w))))
  = match frame_to_paint (anim w) ≫= (sprites (anim w) !!.) with
    | Some s => (Sprite.drawWidth s, Sprite.drawHeight s)
    | None => (drawWidth (anim w), drawHeight (anim w))
    end.
Proof.
  destruct w as [a ps lg]. destruct a. unfold frame_to_paint.
  cbn [anim currentFrame sprites freezeFrame drawWidth drawHeight].
  destruct currentFrame0 as [z|].
  - exec_cases.
    all: unfold length in *; cbn [sprites anim position] in *.
    all: repeat match goal with
                | H : context [map ?f ?l] |- _ => change (map f l) with (f <$> l) in H
                | |- context [map ?f ?l] => change (map f l) with (f <$> l)
                end.
    all: rewrite ?length_insert, ?length_fmap in *.
    all: repeat match goal with
                | H : (_ && _) = true |- _ => apply andb_prop in H as [? ?]
                | H : (_ && _) = false |- _ => apply andb_false_iff in H as [?|?]
                | H : negb _ = true |- _ => apply negb_true_iff in H
                | H : negb _ = false |- _ => apply negb_false_iff in H
                | H : (_ <? _) = true |- _ => apply Z.ltb_lt in H
                | H : (_ <? _) = false |- _ => apply Z.ltb_ge in H
                | H : (_ <=? _) = true |- _ => apply Z.leb_le in H
                | H : (_ <=? _) = false |- _ => apply Z.leb_gt in H
                | H : (_ =? _) = true |- _ => apply Z.eqb_eq in H
                | H : (_ =? _) = false |- _ => apply Z.eqb_neq in H
                end.
    all: try lia.
    all: repeat match goal with
                | H : Some _ = Some _ |- _ => injection H as H; subst
                | H : Some _ = None |- _ => discriminate H
                | H : None = Some _ |- _ => discriminate H
                end.
    all: try reflexivity.
    all: repeat match goal with
                | Ht : (?T <$> ?l) !! ?i = Some ?t,
                  Hk : (<[?i := _]> (?T <$> ?l)) !! ?k = Some ?s' |- _ =>
                    destruct (transformed_size _ _ _ _ _ _ _ _ _ _ Ht Hk)
                      as (? & ? & ? & ?); clear Hk
                | Hk : (<[_ := _]> (_ <$> _)) !! _ = None |- _ =>
                    apply lookup_ge_None in Hk;
                    rewrite ?length_insert, ?length_fmap in Hk
                end.
    all: repeat match goal with
                | Hk : (_ <$> _) !! _ = Some _ |- _ =>
                    rewrite list_lookup_fmap in Hk;
                    apply fmap_Some in Hk as (? & ? & ?); subst
                | Hk : (_ <$> _) !! _ = None |- _ =>
                    rewrite list_lookup_fmap in Hk; apply fmap_None in Hk
                end.
    all: cbn [Sprite.drawWidth Sprite.drawHeight Sprite.set_transform];
      try congruence.
    all: try (repeat match goal with
                     | H : _ !! _ = None |- _ => apply lookup_ge_None in H
                     | H : _ !! _ = Some _ |- _ => apply lookup_lt_Some in H
                     end; unfold clamp in *; lia).
  - exec_cases; try reflexivity;
      match goal with
      | H : _ && false = true |- _ => rewrite andb_false_r in H; discriminate H
      end.
Qed.

Lemma Vector_eta (v : Vector) : mkVector (vx v) (vy v) = v.
Proof. now destruct v. Qed.

(** X10: after a call of [draw], whether it returns or fails, every sprite
    of the sequence carries the anchor, the rotation and the scale of the
    animation, and the sequence has the length it had. *)
Theorem draw_pushes_the_transform (x y : Z) (w : World) :
  Forall (transformed (anim w)) (sprites (anim (world_of (draw x y w))))
  /\ List.length (sprites (anim (world_of (draw x y w))))
     = List.length (sprites (anim w)).
Proof.
  split.
  - apply Forall_lookup. intros j s' Hs'.
    rewrite draw_sprite_lookup in Hs'.
    apply fmap_Some in Hs' as (s & _ & ->). cbn zeta.
    destruct (decide _); repeat split; cbn; apply Vector_eta.
  - destruct (draw_keeps x y w) as (_ & _ & _ & _ & _ & _ & H).
    unfold length in H. lia.
Qed.

(** X11: [draw] sets the flip flags of the sprite at [currentFrame] to
    those of the animation and leaves the flip flags of every other sprite
    alone, the freeze frame of a finished animation included; sizes and
    bounds of the sprites are never changed. *)
Theorem draw_flips_the_current_frame_only
    (x y : Z) (w : World) (j : nat) (s s' : Sprite.t) :
  sprites (anim w) !! j = Some s ->
  sprites (anim (world_of (draw x y w))) !! j = Some s' ->
  (currentFrame (anim w) = Int (Z.of_nat j) ->
     Sprite.flipVertical s' = flipVertical (anim w)
     /\ Sprite.flipHorizontal s' = flipHorizontal (anim w))
  /\ (currentFrame (anim w) <> Int (Z.of_nat j) ->
     Sprite.flipVertical s' = Sprite.flipVertical s
     /\ Sprite.flipHorizontal s' = Sprite.flipHorizontal s)
  /\ Sprite.drawWidth s' = Sprite.drawWidth s
  /\ Sprite.drawHeight s' = Sprite.drawHeight s
  /\ Sprite.width s' = Sprite.width s
  /\ Sprite.height s' = Sprite.height s
  /\ Sprite.localBounds s' = Sprite.localBounds s.
Proof.
  intros Hs Hs'. rewrite draw_sprite_lookup, Hs in Hs'.
  cbn in Hs'. injection Hs' as <-.
  destruct (decide _) as [Heq|Hne]; repeat split; intros; try contradiction;
    reflexivity.
Qed.

Lemma draw_flips_the_current_frame_only_witness :
  let a := set_currentFrame (Int 2) (new 1000 [frame 3; frame 5] 100 (Some false)) in
  let flipped :=
    mk (sprites a) (speed a) (currentFrame a) (_elapsedTime a)
       (_resolveDonePlaying a) (anchor a) (offset a) (rotation a) (scale a)
       (loop a) (freezeFrame a) true true (drawWidth a) (drawHeight a)
       (width a) (height a) in
  let w := mkWorld flipped [] [] in
  painted (world_of (draw 0 0 w)) = [SpriteDraw 1 0 0]
  /\ Sprite.flipVertical
       (Sprite.set_transform (anchor flipped) (rotation flipped) (scale flipped)
                             (frame 5))
     = Sprite.flipVertical (frame 5).
Proof.
  split; [reflexivity|].
  pose (a := set_currentFrame (Int 2) (new 1000 [frame 3; frame 5] 100 (Some false))).
  pose (flipped :=
    mk (sprites a) (speed a) (currentFrame a) (_elapsedTime a)
       (_resolveDonePlaying a) (anchor a) (offset a) (rotation a) (scale a)
       (loop a) (freezeFrame a) true true (drawWidth a) (drawHeight a)
       (width a) (height a)).
  apply (draw_flips_the_current_frame_only 0 0 (mkWorld flipped [] []) 1 (frame 5));
    [reflexivity | reflexivity | discriminate].
Defined.

(** X12: after a call of [draw], [drawWidth] and [drawHeight] are those of
    the sprite the call has painted, the current frame or the freeze
    frame; when the call has painted nothing they are what they were. *)
Theorem draw_reports_the_painted_size (x y : Z) (w : World) :
  (forall i s,
      frame_to_paint (anim w) = Some i ->
      sprites (anim w) !! i = Some s ->
      drawWidth (anim (world_of (draw x y w))) = Sprite.drawWidth s
      /\ drawHeight (anim (world_of (draw x y w))) = Sprite.drawHeight s)
  /\ (frame_to_paint (anim w) = None ->
      drawWidth (anim (world_of (draw x y w))) = drawWidth (anim w)
      /\ drawHeight (anim (world_of (draw x y w))) = drawHeight (anim w)).
Proof.
  pose proof (draw_size x y w) as H. split.
  - intros i s Hi Hs. rewrite Hi in H. cbn in H. rewrite Hs in H.
    now injection H.
  - intros Hn. rewrite Hn in H. cbn in H. now injection H.
Qed.

Lemma draw_reports_the_painted_size_witness :
  let w := run [Tick 100] (fresh 1000 [frame 3; frame 5] 100 None) in
  drawWidth (anim w) = 3
  /\ drawWidth (anim (world_of (draw 0 0 w))) = Sprite.drawWidth (frame 5)
  /\ drawHeight (anim (world_of (draw 0 0 w))) = Sprite.drawHeight (frame 5).
Proof.
  split; [reflexivity|].
  apply (draw_reports_the_painted_size 0 0
           (run [Tick 100] (fresh 1000 [frame 3; frame 5] 100 None)) )
    with (i := 1%nat); reflexivity.
Defined.

(** X13: a new non-looping animation with a non-empty sequence that has
    been ticked to its end freezes on its last frame: [draw] returns
    normally and paints the last sprite of the sequence. *)
Theorem finished_animation_shows_its_last_frame
    (now sp : Z) (l : list Sprite.t) (ds : list Z) (x y : Z)
    (ps : list promise) (lg : list event) :
  sp <= now ->
  l <> [] ->
  Forall (fun d => sp <= d) ds ->
  length l <= length ds ->
  threw (draw x y (mkWorld (ticks ds (new now l sp (Some false))) ps lg)) = false
  /\ painted (world_of
                (draw x y (mkWorld (ticks ds (new now l sp (Some false))) ps lg)))
     = SpriteDraw (List.length l - 1) x y :: List.filter is_paint lg.
Proof.
  intros Hnow Hne Hds Hlen. pose proof (length_pos _ Hne) as Hpos.
  destruct (due_ticks ds sp (new now l sp (Some false)) 0) as [Hc _];
    [reflexivity | reflexivity | exact Hnow | exact Hds |].
  specialize (Hc eq_refl). rewrite Z.add_0_l in Hc.
  destruct (ticks_keeps ds (new now l sp (Some false))) as (Hs & _ & _ & Hf).
  destruct (draw_outcome x y (mkWorld (ticks ds (new now l sp (Some false))) ps lg))
    as [-> ->].
  unfold draw_fails, frame_to_paint. cbn [anim].
  rewrite Hc, Hs, Hf. cbn [sprites freezeFrame new].
  destruct l as [|s0 l']; [congruence|]. cbn [head].
  set (n := length (s0 :: l')) in *.
  destruct (Z.ltb_spec (length ds) 0); [unfold length in *; lia|].
  destruct (Z.eqb_spec n 0); [lia|].
  destruct (Z.leb_spec 0 (length ds)); [|lia].
  destruct (Z.ltb_spec (length ds) n); [lia|].
  destruct (Z.leb_spec n (length ds)); [|lia].
  destruct (Z.eqb_spec (n - 1) (-1)); [lia|].
  destruct (Z.ltb_spec 0 n); [|lia].
  cbn [andb orb negb]. split; [reflexivity|].
  unfold paints, painted. cbn [app log]. f_equal. f_equal.
  unfold clamp. subst n. unfold length in *. lia.
Qed.

Lemma finished_animation_shows_its_last_frame_witness :
  painted (world_of
             (draw 4 5 (mkWorld (ticks [100; 100; 100; 100]
                                       (new 1000 [frame 3; frame 5; frame 7] 100
                                            (Some false)))
                                [] [])))
  = [SpriteDraw 2 4 5].
Proof.
  apply (finished_animation_shows_its_last_frame
           1000 100 [frame 3; frame 5; frame 7] [100; 100; 100; 100] 4 5 [] []).
  - lia.
  - discriminate.
  - repeat constructor; lia.
  - unfold length. simpl. lia.
Defined.

(** ** Drawing and the clock *)

Lemma same_clock_refl (w : World) : same_clock w w.
Proof. repeat split. Qed.

Lemma same_clock_draw (x y : Z) (w1 w2 : World) :
  same_clock w1 w2 -> same_clock (step (Draw x y) w1) w2.
Proof.
  intros (Hc & He & Hl & Hs & Hn). unfold same_clock. cbn [step].
  destruct (draw_keeps x y w1) as (-> & -> & -> & _ & -> & _ & ->).
  repeat split; assumption.
Qed.

Lemma same_clock_step (o : op) (w1 w2 : World) :
  is_draw o = false ->
  same_clock w1 w2 -> same_clock (step o w1) (step o w2).
Proof.
  intros Ho (Hc & He & Hl & Hs & Hn).
  destruct o as [delta|frames| |x y|x y]; try discriminate.
  - rewrite !step_tick. unfold same_clock, tick. cbn [anim].
    rewrite Hs, He.
    destruct (speed (anim w2) <=? _elapsedTime (anim w2)); cbn;
      rewrite ?Hc, ?Hl, ?Hn, ?He; repeat split; assumption.
  - rewrite !step_skip. unfold same_clock, skip. cbn. rewrite Hc, Hn.
    repeat split; assumption.
  - rewrite !step_reset. unfold same_clock, reset. cbn.
    repeat split; assumption.
  - rewrite !step_play. unfold same_clock, reset. cbn.
    repeat split; assumption.
Qed.

Lemma same_clock_run (ops : list op) (w1 w2 : World) :
  same_clock w1 w2 -> same_clock (run ops w1) (run (without_draws ops) w2).
Proof.
  revert w1 w2. induction ops as [|o ops IH]; intros w1 w2 H; [exact H|].
  cbn [run without_draws List.filter]. fold (without_draws ops).
  destruct (is_draw o) eqn:Ho; cbn [negb run].
  - destruct o as [| | |x y|]; try discriminate.
    apply IH. now apply same_clock_draw.
  - apply IH. now apply same_clock_step.
Qed.

(** X14: drawing has no influence on the clock of an animation.  The frame
    index, the accumulator and whether the animation is done are, after any
    sequence of [tick], [skip], [reset], [draw] and [play], what they are
    after the same sequence with every [draw] left out. *)
Theorem drawing_does_not_move_the_clock (ops : list op) (w : World) :
  currentFrame (anim (run ops w)) = currentFrame (anim (run (without_draws ops) w))
  /\ _elapsedTime (anim (run ops w))
     = _elapsedTime (anim (run (without_draws ops) w))
  /\ isDone (anim (run ops w)) = isDone (anim (run (without_draws ops) w)).
Proof.
  destruct (same_clock_run ops w w (same_clock_refl w)) as (Hc & He & Hl & _ & Hn).
  split; [exact Hc|]. split; [exact He|].
  unfold isDone. now rewrite Hc, Hl, Hn.
Qed.

(** ** The [loaded] getter *)

Lemma fold_loaded (sprites : list bool) (acc : bool) :
  fold_left (fun loaded sprite => sprite && loaded) sprites acc
  = acc && forallb id sprites.
Proof.
  revert acc. induction sprites as [|s sprites IH]; intros acc; cbn.
  - now rewrite andb_true_r.
  - rewrite IH. unfold id. destruct s, acc; reflexivity.
Qed.

Lemma loaded_readings_latched (snapshots : list (list bool)) :
  Forall (fun r => r = true) (loaded_readings true snapshots).
Proof.
  induction snapshots as [|s snapshots IH]; cbn; constructor; auto.
Qed.

(** X15: [loaded] is true when every sprite is loaded, in particular for an
    empty sequence, and it latches: once a reading has been true, every
    later reading is true, whatever the sprites report then. *)
Theorem loaded_latches
    (flag : bool) (sprites : list bool) (snapshots : list (list bool)) :
  fst (loaded flag sprites) = flag || forallb id sprites
  /\ snd (loaded flag sprites) = fst (loaded flag sprites)
  /\ (fst (loaded flag sprites) = true ->
      Forall (fun r => r = true)
             (loaded_readings (snd (loaded flag sprites)) snapshots)).
Proof.
  unfold loaded. destruct flag; cbn [fst snd orb].
  - repeat split. intros _. apply loaded_readings_latched.
  - rewrite fold_loaded. cbn [andb]. repeat split.
    intros ->. apply loaded_readings_latched.
Qed.

Lemma loaded_latches_witness :
  fst (loaded false [true; true]) = true
  /\ Forall (fun r => r = true)
            (loaded_readings (snd (loaded false [true; true]))
                             [[false; true]; [false; false]; []]).
Proof.
  split; [reflexivity|].
  apply (loaded_latches false [true; true] [[false; true]; [false; false]; []]).
  reflexivity.
Defined.

Lemma draw_fails_exactly_witness :
  threw (draw 0 0 (run [Skip (-1)] (fresh 1000 [frame 3; frame 5] 100 None)))
  = true.
Proof.
  apply (draw_fails_exactly 0 0
           (run [Skip (-1)] (fresh 1000 [frame 3; frame 5] 100 None))).
  exists (-1). split; [reflexivity | left; lia].
Defined.

(** X23: [play(x, y)] asks the engine once to play the animation at
    [(x, y)], goes back to frame 0 and leaves the accumulator alone; on a
    non-empty sequence the next [draw] returns normally and paints the first
    sprite, whatever the frame was before. *)
Theorem play_then_draw_paints_the_first_frame
    (x y x' y' : Z) (w : World) :
  sprites (anim w) <> [] ->
  log (step (Play x y) w) = PlayAnimation x y :: log w
  /\ currentFrame (anim (step (Play x y) w)) = Int 0
  /\ _elapsedTime (anim (step (Play x y) w)) = _elapsedTime (anim w)
  /\ threw (draw x' y' (step (Play x y) w)) = false
  /\ painted (world_of (draw x' y' (step (Play x y) w)))
     = SpriteDraw 0 x' y' :: painted w.
Proof.
  intros Hne. pose proof (length_pos _ Hne) as Hpos.
  rewrite step_play. repeat (split; [reflexivity|]).
  destruct (draw_outcome x' y'
              (mkWorld (set_resolveDonePlaying (Some (List.length (promises w)))
                                               (reset (anim w)))
                       (promises w ++ [Pending]) (PlayAnimation x y :: log w)))
    as [-> ->].
  unfold draw_fails, frame_to_paint. cbn [anim currentFrame sprites
    set_resolveDonePlaying reset set_currentFrame freezeFrame].
  destruct (Z.eqb_spec (length (sprites (anim w))) 0); [lia|].
  destruct (Z.ltb_spec 0 (length (sprites (anim w)))); [|lia].
  cbn. split; reflexivity.
Qed.

Lemma play_then_draw_paints_the_first_frame_witness :
  let w := run [Tick 100; Tick 100; Tick 100]
               (fresh 1000 [frame 3; frame 5] 100 (Some false)) in
  currentFrame (anim w) = Int 3
  /\ painted (world_of (draw 7 9 (step (Play 1 2) w))) = SpriteDraw 0 7 9 :: painted w.
Proof.
  split; [reflexivity|].
  apply (play_then_draw_paints_the_first_frame 1 2 7 9
           (run [Tick 100; Tick 100; Tick 100]
                (fresh 1000 [frame 3; frame 5] 100 (Some false)))).
  discriminate.
Defined.

End PlaybackFacts.

(** * Further properties of graphics groups *)

Module GroupFacts.

Import GraphicsGroup GroupDrawing.

Section Members.

Context {Static Anim : Type}.
Variable anim_tick : Z -> Anim -> Anim.
Variable anim_reset : Anim -> Anim.

Abbreviation Graphic := (Graphic Static Anim).
Abbreviation tick := (tick anim_tick).
Abbreviation reset := (reset anim_reset).

Lemma reset_member (pos : Vector) (g : Graphic) :
  (let member := (pos, g) in
   let maybeAnimation := snd member in
   if _isAnimationOrGroup maybeAnimation
   then (fst member, reset maybeAnimation)
   else member)
  = (pos, reset g).
Proof. destruct g; reflexivity. Qed.

Lemma reset_animations (g : Graphic) :
  animations (reset g) = map anim_reset (animations g).
Proof.
  induction g as [s|a|ms IH] using Graphic_ind; [reflexivity..|].
  cbn [GraphicsGroup.reset animations].
  induction IH as [|[pos g] ms Hg _ IHms]; [reflexivity|].
  cbn [map concat]. rewrite map_app, <- IHms. f_equal.
  destruct g; [reflexivity | exact Hg | exact Hg].
Qed.

Lemma reset_statics (g : Graphic) : statics (reset g) = statics g.
Proof.
  induction g as [s|a|ms IH] using Graphic_ind; [reflexivity..|].
  cbn [GraphicsGroup.reset statics].
  induction IH as [|[pos g] ms Hg _ IHms]; [reflexivity|].
  cbn [map concat]. rewrite <- IHms. f_equal.
  destruct g; [reflexivity | exact Hg | exact Hg].
Qed.

Lemma tick_animations' (d : Z) (g : Graphic) :
  animations (tick d g) = map (anim_tick d) (animations g).
Proof.
  induction g as [s|a|ms IH] using Graphic_ind; [reflexivity..|].
  cbn [GraphicsGroup.tick animations].
  induction IH as [|[pos g] ms Hg _ IHms]; [reflexivity|].
  cbn [map concat]. rewrite map_app, <- IHms. f_equal.
  destruct g; [reflexivity | exact Hg | exact Hg].
Qed.

(** X16: [reset()] of a group resets every animation in it, at any depth,
    exactly once and leaves every static image as it is; the members keep
    their positions and their order.  A [tick(D)] after it ticks the reset
    animations with [D]. *)
Theorem reset_reaches_every_animation
    (D : Z) (ms : list (Vector * Graphic)) :
  members (reset (Group ms))
  = map (fun member => (fst member, reset (snd member))) ms
  /\ map fst (members (reset (Group ms))) = map fst ms
  /\ animations (reset (Group ms)) = map anim_reset (animations (Group ms))
  /\ statics (reset (Group ms)) = statics (Group ms)
  /\ animations (tick D (reset (Group ms)))
     = map (fun a => anim_tick D (anim_reset a)) (animations (Group ms)).
Proof.
  assert (Hm : members (reset (Group ms))
               = map (fun member => (fst member, reset (snd member))) ms).
  { cbn [GraphicsGroup.reset members]. apply map_ext.
    intros [pos g]. apply reset_member. }
  split; [exact Hm|]. split; [|split; [|split]].
  - rewrite Hm, map_map. reflexivity.
  - apply reset_animations.
  - apply reset_statics.
  - rewrite tick_animations', reset_animations, map_map. reflexivity.
Qed.

(** ** [_drawImage] *)

Lemma Vector_eta_group (v : Vector) : mkVector (vx v) (vy v) = v.
Proof. now destruct v. Qed.

Lemma depth_app (open : Z) (calls calls' : list (command Static Anim)) :
  depth open (calls ++ calls') = depth (depth open calls) calls'.
Proof.
  revert open. induction calls as [|c calls IH]; intros open; [reflexivity|].
  destruct c; cbn [depth app]; apply IH.
Qed.

Lemma depth_shift (open : Z) (calls : list (command Static Anim)) :
  depth open calls = open + depth 0 calls.
Proof.
  revert open. induction calls as [|c calls IH]; intros open; cbn [depth].
  - lia.
  - destruct c; rewrite ?(IH (open + 1)), ?(IH (open - 1)), ?(IH (0 + 1)),
      ?(IH (0 - 1)), ?(IH open); try lia.
Qed.

Lemma drawn_app (calls calls' : list (command Static Anim)) :
  drawn (calls ++ calls') = drawn calls ++ drawn calls'.
Proof.
  induction calls as [|c calls IH]; [reflexivity|].
  destruct c; cbn [drawn app]; rewrite IH; reflexivity.
Qed.


End Members.


End GroupFacts.

(** * Further properties of the culling module *)

Module PatrolFacts.

Import OffscreenCulling OffscreenCullingFacts Patrol.
Local Open Scope Q_scope.

Lemma exits_enters_exclusive (s : Screen) (engine : Engine) :
  exits s engine = true -> enters s engine = false.
Proof.
  intros Hx. apply exits_true in Hx. apply enters_false.
  destruct Hx as [H | [H | [H | H]]];
    [left | right; left | right; right; left | right; right; right]; lra.
Qed.

Lemma screen_publish (name : string) (event : GameEvent) (flag : bool)
    (actor : Actor) (engine : Engine) :
  screen (publish_and_flag name event flag actor) engine = screen actor engine.
Proof. reflexivity. Qed.

(** X18: for an entity that is off-screen, if the right edge of its zoomed
    rectangle is above 0, the bottom edge above 0, the left edge below the
    viewport width and the top edge below the viewport height, the call
    publishes exactly one enter-viewport event and clears the off-screen
    flag; otherwise it publishes nothing and changes nothing. *)
Theorem off_screen_enter (actor : Actor) (engine : Engine) (delta : Q) :
  isOffScreen actor = true ->
  (0 < right_edge (screen actor engine)
   /\ 0 < bottom_edge (screen actor engine)
   /\ left_edge (screen actor engine) < width engine
   /\ top_edge (screen actor engine) < height engine ->
   published actor (update actor engine delta)
   = [("enterviewport"%string, EnterViewPortEvent)]
   /\ eventDispatcher (update actor engine delta)
      = ("enterviewport"%string, EnterViewPortEvent) :: eventDispatcher actor
   /\ isOffScreen (update actor engine delta) = false)
  /\ (~ (0 < right_edge (screen actor engine)
         /\ 0 < bottom_edge (screen actor engine)
         /\ left_edge (screen actor engine) < width engine
         /\ top_edge (screen actor engine) < height engine) ->
      published actor (update actor engine delta) = []
      /\ update actor engine delta = actor).
Proof.
  intros Hoff. rewrite update_off_screen by assumption. split.
  - intros He. apply enters_true in He. rewrite He.
    unfold published, publish_and_flag.
    cbn [eventDispatcher isOffScreen List.length].
    replace (S (List.length (eventDispatcher actor))
             - List.length (eventDispatcher actor))%nat with 1%nat by lia.
    repeat split.
  - intros He. rewrite <- enters_true in He.
    destruct (enters (screen actor engine) engine); [now elim He|].
    unfold published. rewrite Nat.sub_diag. split; reflexivity.
Qed.

Lemma off_screen_enter_witness :
  let coming := actor_at 100 100 2 true in
  let away := actor_at 900 100 2 true in
  (published coming (update coming viewport 16)
   = [("enterviewport"%string, EnterViewPortEvent)]
   /\ eventDispatcher (update coming viewport 16)
      = ("enterviewport"%string, EnterViewPortEvent) :: eventDispatcher coming
   /\ isOffScreen (update coming viewport 16) = false)
  /\ (published away (update away viewport 16) = []
      /\ update away viewport 16 = away).
Proof.
  split.
  - apply (off_screen_enter (actor_at 100 100 2 true) viewport 16 eq_refl).
    vm_compute. repeat split.
  - apply (off_screen_enter (actor_at 900 100 2 true) viewport 16 eq_refl).
    vm_compute. intros (_ & _ & H & _). discriminate.
Defined.

Lemma update_twice (actor : Actor) (engine : Engine) (delta delta' : Q) :
  update (update actor engine delta) engine delta' = update actor engine delta.
Proof.
  destruct (isOffScreen actor) eqn:Hf.
  - rewrite (update_off_screen actor engine delta Hf).
    destruct (enters (screen actor engine) engine) eqn:He.
    + rewrite update_on_screen by reflexivity. rewrite screen_publish.
      destruct (exits (screen actor engine) engine) eqn:Hx; [|reflexivity].
      apply exits_enters_exclusive in Hx. congruence.
    + rewrite update_off_screen by assumption. now rewrite He.
  - rewrite (update_on_screen actor engine delta Hf).
    destruct (exits (screen actor engine) engine) eqn:Hx.
    + rewrite update_off_screen by reflexivity. rewrite screen_publish.
      now rewrite (exits_enters_exclusive _ _ Hx).
    + rewrite update_on_screen by assumption. now rewrite Hx.
Qed.

(** X19: an entity that does not move is told at most once.  Evaluating it
    again, and again, after a first evaluation changes nothing: no further
    event is published and the flag stays. *)
Theorem repeated_evaluation_is_silent
    (n : nat) (actor : Actor) (engine : Engine) (delta : Q) :
  update (update actor engine delta) engine delta = update actor engine delta
  /\ evaluate (S n) actor engine delta = update actor engine delta.
Proof.
  split; [apply update_twice|].
  cbn [evaluate]. induction n as [|n IH]; [reflexivity|].
  cbn [evaluate]. now rewrite update_twice.
Qed.

(** X20: for a rectangle of non-negative zoomed size and a viewport of
    non-negative size, the exit condition holds exactly when the rectangle
    and the viewport have no point in common. *)
Theorem exit_means_no_common_point (s : Screen) (engine : Engine) :
  0 <= s_width s * zoom s ->
  0 <= s_height s * zoom s ->
  0 <= width engine ->
  0 <= height engine ->
  (exits s engine = true
   <-> ~ exists p q,
         (left_edge s <= p /\ p <= right_edge s)
         /\ (top_edge s <= q /\ q <= bottom_edge s)
         /\ (0 <= p /\ p <= width engine)
         /\ (0 <= q /\ q <= height engine)).
Proof.
  intros Hw Hh HW HH.
  assert (Hr : right_edge s == left_edge s + s_width s * zoom s)
    by (unfold right_edge, left_edge; reflexivity).
  assert (Hb : bottom_edge s == top_edge s + s_height s * zoom s)
    by (unfold bottom_edge, top_edge; reflexivity).
  split.
  - intros Hx (p & q & (Hp1 & Hp2) & (Hq1 & Hq2) & (Hp3 & Hp4) & (Hq3 & Hq4)).
    apply exits_true in Hx. destruct Hx as [H | [H | [H | H]]]; lra.
  - intros Hn. destruct (exits s engine) eqn:Hx; [reflexivity|].
    exfalso. apply Hn. apply exits_false in Hx as (H1 & H2 & H3 & H4).
    exists (if Qlt_le_dec (left_edge s) 0 then 0 else left_edge s).
    exists (if Qlt_le_dec (top_edge s) 0 then 0 else top_edge s).
    destruct (Qlt_le_dec (left_edge s) 0), (Qlt_le_dec (top_edge s) 0);
      repeat split; lra.
Qed.

Lemma exit_means_no_common_point_witness :
  let s := screen (actor_at (-25) 100 2 false) viewport in
  exits s viewport = true
  <-> ~ exists p q,
        (left_edge s <= p /\ p <= right_edge s)
        /\ (top_edge s <= q /\ q <= bottom_edge s)
        /\ (0 <= p /\ p <= width viewport)
        /\ (0 <= q /\ q <= height viewport).
Proof.
  apply (exit_means_no_common_point
           (screen (actor_at (-25) 100 2 false) viewport) viewport);
    vm_compute; discriminate.
Defined.

(** X21: for a rectangle of positive zoomed size and a viewport of positive
    size, the enter condition holds exactly when the inside of the
    rectangle and the inside of the viewport have a point in common. *)
Theorem enter_means_overlap (s : Screen) (engine : Engine) :
  0 < s_width s * zoom s ->
  0 < s_height s * zoom s ->
  0 < width engine ->
  0 < height engine ->
  (enters s engine = true
   <-> exists p q,
         (left_edge s < p /\ p < right_edge s)
         /\ (top_edge s < q /\ q < bottom_edge s)
         /\ (0 < p /\ p < width engine)
         /\ (0 < q /\ q < height engine)).
Proof.
  intros Hw Hh HW HH.
  assert (Hr : right_edge s == left_edge s + s_width s * zoom s)
    by (unfold right_edge, left_edge; reflexivity).
  assert (Hb : bottom_edge s == top_edge s + s_height s * zoom s)
    by (unfold bottom_edge, top_edge; reflexivity).
  rewrite enters_true. split.
  - intros (H1 & H2 & H3 & H4).
    exists (((if Qlt_le_dec (left_edge s) 0 then 0 else left_edge s)
             + (if Qlt_le_dec (right_edge s) (width engine)
                then right_edge s else width engine)) * (1 # 2)).
    exists (((if Qlt_le_dec (top_edge s) 0 then 0 else top_edge s)
             + (if Qlt_le_dec (bottom_edge s) (height engine)
                then bottom_edge s else height engine)) * (1 # 2)).
    destruct (Qlt_le_dec (left_edge s) 0),
      (Qlt_le_dec (right_edge s) (width engine)),
      (Qlt_le_dec (top_edge s) 0),
      (Qlt_le_dec (bottom_edge s) (height engine));
      repeat split; lra.
  - intros (p & q & (Hp1 & Hp2) & (Hq1 & Hq2) & (Hp3 & Hp4) & (Hq3 & Hq4)).
    repeat split; lra.
Qed.

Lemma enter_means_overlap_witness :
  let s := screen (actor_at (-5) 100 2 true) viewport in
  enters s viewport = true
  <-> exists p q,
        (left_edge s < p /\ p < right_edge s)
        /\ (top_edge s < q /\ q < bottom_edge s)
        /\ (0 < p /\ p < width viewport)
        /\ (0 < q /\ q < height viewport).
Proof.
  apply (enter_means_overlap
           (screen (actor_at (-5) 100 2 true) viewport) viewport);
    vm_compute; reflexivity.
Defined.

(** ** An actor on the move *)

Lemma update_keeps_alternation (actor : Actor) (engine : Engine) (delta : Q) :
  alternating (eventDispatcher actor) ->
  flag_follows_events actor ->
  alternating (eventDispatcher (update actor engine delta))
  /\ flag_follows_events (update actor engine delta)
  /\ (List.length (eventDispatcher (update actor engine delta))
      <= S (List.length (eventDispatcher actor)))%nat.
Proof.
  intros Ha Hf. unfold update.
  destruct (isOffScreen actor) eqn:Hoff; cbn [negb].
  - destruct (enters _ _); [|repeat split; auto].
    unfold flag_follows_events in *.
    cbn [publish_and_flag eventDispatcher isOffScreen alternating List.length].
    split; [|split; [reflexivity | lia]].
    destruct (eventDispatcher actor) as [|[name e] rest]; [exact I|].
    split; [|exact Ha]. cbn. destruct e; [discriminate | congruence].
  - destruct (exits _ _); [|repeat split; auto].
    unfold flag_follows_events in *.
    cbn [publish_and_flag eventDispatcher isOffScreen alternating List.length].
    split; [|split; [reflexivity | lia]].
    destruct (eventDispatcher actor) as [|[name e] rest]; [exact I|].
    split; [|exact Ha]. cbn. destruct e; [congruence | discriminate].
Qed.

(** X22: however an entity moves between evaluations, the events it is
    sent alternate: an exit is never followed by another exit nor an enter
    by another enter, the off-screen flag always says what the latest event
    said, and there is at most one event for each evaluation. *)
Theorem enter_and_exit_events_alternate
    (places : list (Q * Q)) (actor : Actor) (engine : Engine) (delta : Q) :
  alternating (eventDispatcher actor) ->
  flag_follows_events actor ->
  alternating (eventDispatcher (patrol places actor engine delta))
  /\ flag_follows_events (patrol places actor engine delta)
  /\ (List.length (eventDispatcher (patrol places actor engine delta))
      <= List.length places + List.length (eventDispatcher actor))%nat.
Proof.
  revert actor. induction places as [|[x y] places IH]; intros actor Ha Hf.
  - cbn. repeat split; auto.
  - cbn [patrol].
    destruct (update_keeps_alternation (move_to x y actor) engine delta Ha Hf)
      as (Ha' & Hf' & Hlen).
    destruct (IH _ Ha' Hf') as (Ha'' & Hf'' & Hlen'').
    repeat split; auto. cbn [List.length] in *.
    change (eventDispatcher (move_to x y actor)) with (eventDispatcher actor) in Hlen.
    lia.
Qed.

Lemma enter_and_exit_events_alternate_witness :
  let places := [(100, 100); (-30, 100); (-40, 100); (5, 5); (6, 6); (900, 0)] in
  let start := actor_at 0 0 2 false in
  alternating (eventDispatcher start)
  /\ flag_follows_events start
  /\ alternating (eventDispatcher (patrol places start viewport 16)).
Proof.
  assert (Ha : alternating (eventDispatcher (actor_at 0 0 2 false))) by exact I.
  assert (Hf : flag_follows_events (actor_at 0 0 2 false)) by exact I.
  split; [exact Ha|]. split; [exact Hf|].
  exact (proj1 (enter_and_exit_events_alternate
                  [(100, 100); (-30, 100); (-40, 100); (5, 5); (6, 6); (900, 0)]
                  (actor_at 0 0 2 false) viewport 16 Ha Hf)).
Defined.

End PatrolFacts.
